(** * CircularBuffer.h: a fixed-capacity ring buffer with masked counters

    Shallow embedding of [buffer::CircularBuffer<T, buffer_size, index_t>]
    (src/include/CircularBuffer.h) and the properties of its index
    arithmetic.

    Integers are modelled as [Z] with every conversion of the C++ abstract
    machine written out.  The data model is LP64: [int] has 32 bits and
    [size_t] has 64 bits.  [index_t] ranges over the unsigned fixed-width
    types.  Two rules of the language matter for this class:

    - integral promotion: an operand of type [uint8_t] or [uint16_t] is
      converted to [int] before any arithmetic or comparison, so
      [m_head - m_tail] is then a (possibly negative) [int];
    - usual arithmetic conversions: when an [int] meets a [size_t] the [int]
      is converted to [size_t], i.e. reduced modulo 2^64.

    An access outside an array is undefined behaviour; the operations that
    touch memory return [None] there. *)

From Stdlib Require Import ZArith Lia List Bool.
From stdpp Require Import base option list numbers.

Local Open Scope Z_scope.

(** ** C++ integer types *)

Inductive index_t : Set := uint8_t | uint16_t | uint32_t | uint64_t.

Definition bits (t : index_t) : Z :=
  match t with
  | uint8_t => 8
  | uint16_t => 16
  | uint32_t => 32
  | uint64_t => 64
  end.

Definition int_bits : Z := 32.
Definition size_bits : Z := 64.

(** Conversion to an unsigned type of [w] bits. *)
Definition wrap (w x : Z) : Z := x mod 2 ^ w.

(** [int] represents every value of the type: it is promoted to [int]. *)
Definition promoted (t : index_t) : bool := bits t <? int_bits.

Definition to_size (x : Z) : Z := wrap size_bits x.

Definition is_size_t (x : Z) : bool := (0 <=? x) && (x <? 2 ^ size_bits).

(** ** Memory *)

(** [a[i]] as an rvalue. *)
Definition load {A : Type} (a : list A) (i : Z) : option A :=
  if decide (0 ≤ i) then a !! Z.to_nat i else None.

(** [a[i] = v]. *)
Definition store {A : Type} (a : list A) (i : Z) (v : A) : option (list A) :=
  if decide (0 ≤ i < Z.of_nat (length a))
  then Some (<[Z.to_nat i := v]> a)
  else None.

(** A [T*] returned by the class: [NULL] or the address of a slot of
    [m_dataBuff]. *)
Inductive ptr : Set := NULL | Elem (slot : Z).

(** ** The class *)

Record CircularBuffer (T : Type) : Type := mkCircularBuffer {
  m_head : Z;
  m_tail : Z;
  m_dataBuff : list T
}.

Arguments mkCircularBuffer {T} _ _ _.
Arguments m_head {T} _.
Arguments m_tail {T} _.
Arguments m_dataBuff {T} _.

Section CircularBuffer.

Context {T : Type}.
Variable buffer_size : Z.
Variable idx : index_t.

Local Abbreviation state := (CircularBuffer T).

Definition to_index (x : Z) : Z := wrap (bits idx) x.

(** [const static index_t buffer_mask = buffer_size - 1;] *)
Definition buffer_mask : Z := to_index (to_size (buffer_size - 1)).

(** The value of the expression [m_head - m_tail], in its own type: [int]
    for a promoted [index_t], [index_t] otherwise. *)
Definition head_minus_tail (s : state) : Z :=
  if promoted idx then m_head s - m_tail s
  else to_index (m_head s - m_tail s).

(** [assert((buffer_size & buffer_mask) == 0)] *)
Definition ctor_assert : bool := Z.land buffer_size buffer_mask =? 0.

(** [CircularBuffer()]; [mem] is the indeterminate content of the array,
    [None] is the failed assertion. *)
Definition CircularBuffer_ctor (mem : list T) : option state :=
  if ctor_assert then Some (mkCircularBuffer 0 0 mem) else None.

Definition clear (s : state) : state :=
  mkCircularBuffer (m_head s) (m_head s) (m_dataBuff s).

Definition readAvailable (s : state) : Z := to_index (head_minus_tail s).

Definition writeAvailable (s : state) : Z :=
  to_index (to_size (buffer_size - to_size (head_minus_tail s))).

Definition isEmpty (s : state) : bool := readAvailable s =? 0.

Definition isFull (s : state) : bool := writeAvailable s =? 0.

(** [bool insert(T data)] *)
Definition insert (s : state) (data : T) : option (bool * state) :=
  if to_size (head_minus_tail s) =? buffer_size then Some (false, s)
  else
    d ← store (m_dataBuff s) (Z.land (m_head s) buffer_mask) data;
    Some (true, mkCircularBuffer (to_index (m_head s + 1)) (m_tail s) d).

(** [bool insert(const T *data)], with [data] the value pointed to. *)
Definition insert_ptr (s : state) (data : T) : option (bool * state) :=
  if to_size (head_minus_tail s) =? buffer_size then Some (false, s)
  else
    d ← store (m_dataBuff s) (Z.land (m_head s) buffer_mask) data;
    Some (true, mkCircularBuffer (to_index (m_head s + 1)) (m_tail s) d).

(** [bool remove()] *)
Definition remove (s : state) : bool * state :=
  if m_tail s =? m_head s then (false, s)
  else (true, mkCircularBuffer (m_head s) (to_index (m_tail s + 1))
                (m_dataBuff s)).

(** [size_t remove(size_t cnt)] *)
Definition remove_cnt (s : state) (cnt : Z) : Z * state :=
  let avail := to_index (head_minus_tail s) in
  let cnt := if cnt >? avail then avail else cnt in
  (cnt, mkCircularBuffer (m_head s) (to_index (to_size (m_tail s + cnt)))
          (m_dataBuff s)).

(** [bool remove(T *data)]; the second component is [*data] on return. *)
Definition remove_ptr (s : state) (data : T) : option (bool * T * state) :=
  if m_tail s =? m_head s then Some (false, data, s)
  else
    v ← load (m_dataBuff s) (Z.land (m_tail s) buffer_mask);
    Some (true, v, mkCircularBuffer (m_head s) (to_index (m_tail s + 1))
                     (m_dataBuff s)).

(** [bool remove(T &data)] *)
Definition remove_ref (s : state) (data : T) : option (bool * T * state) :=
  remove_ptr s data.

(** [T *peek()]; not a [const] member, so the state is threaded. *)
Definition peek (s : state) : ptr * state :=
  if m_tail s =? m_head s then (NULL, s)
  else (Elem (Z.land (m_tail s) buffer_mask), s).

(** [T *at(size_t index)] *)
Definition at_ (s : state) (index : Z) : ptr * state :=
  if to_size (head_minus_tail s) <=? index then (NULL, s)
  else (Elem (Z.land (to_size (m_tail s + index)) buffer_mask), s).

(** [T &operator[](size_t index)] *)
Definition subscript (s : state) (index : Z) : ptr * state :=
  (Elem (Z.land (to_size (m_tail s + index)) buffer_mask), s).

(** The loop of [writeBuff]: [n] iterations are left, [i] is the loop
    variable. *)
Fixpoint write_loop (n : nat) (i : Z) (buff : list T) (s : state)
  : option state :=
  match n with
  | O => Some s
  | S n' =>
      v ← load buff i;
      d ← store (m_dataBuff s) (Z.land (m_head s) buffer_mask) v;
      write_loop n' (i + 1) buff
        (mkCircularBuffer (to_index (m_head s + 1)) (m_tail s) d)
  end.

(** [size_t writeBuff(const T *buff, size_t count)] *)
Definition writeBuff (s : state) (buff : list T) (count : Z)
  : option (Z * state) :=
  let available :=
    to_index (to_size (buffer_size - to_size (head_minus_tail s))) in
  let to_write := if available <? count then available else count in
  s' ← write_loop (Z.to_nat to_write) 0 buff s;
  Some (to_write, s').

(** The loop of [readBuff]. *)
Fixpoint read_loop (n : nat) (i : Z) (buff : list T) (s : state)
  : option (list T * state) :=
  match n with
  | O => Some (buff, s)
  | S n' =>
      v ← load (m_dataBuff s) (Z.land (m_tail s) buffer_mask);
      buff' ← store buff i v;
      read_loop n' (i + 1) buff'
        (mkCircularBuffer (m_head s) (to_index (m_tail s + 1))
           (m_dataBuff s))
  end.

(** [size_t readBuff(T *buff, size_t count)]; the second component is the
    destination array on return. *)
Definition readBuff (s : state) (buff : list T) (count : Z)
  : option (Z * list T * state) :=
  let available := to_index (head_minus_tail s) in
  let to_read := if available <? count then available else count in
  r ← read_loop (Z.to_nat to_read) 0 buff s;
  Some (to_read, r.1, r.2).

(** ** Calls of the public interface *)

Inductive op : Type :=
  | Clear
  | Insert (data : T)
  | InsertPtr (data : T)
  | Remove
  | RemoveCnt (cnt : Z)
  | RemovePtr (data : T)
  | RemoveRef (data : T)
  | Peek
  | At (index : Z)
  | Subscript (index : Z)
  | WriteBuff (buff : list T) (count : Z)
  | ReadBuff (buff : list T) (count : Z).

(** The state after one call; a [size_t] argument holds a [size_t] value. *)
Definition step (o : op) (s : state) : option state :=
  match o with
  | Clear => Some (clear s)
  | Insert data => r ← insert s data; Some r.2
  | InsertPtr data => r ← insert_ptr s data; Some r.2
  | Remove => Some (remove s).2
  | RemoveCnt cnt =>
      if is_size_t cnt then Some (remove_cnt s cnt).2 else None
  | RemovePtr data => r ← remove_ptr s data; Some r.2
  | RemoveRef data => r ← remove_ref s data; Some r.2
  | Peek => Some (peek s).2
  | At index => if is_size_t index then Some (at_ s index).2 else None
  | Subscript index =>
      if is_size_t index then Some (subscript s index).2 else None
  | WriteBuff buff count =>
      if is_size_t count then r ← writeBuff s buff count; Some r.2 else None
  | ReadBuff buff count =>
      if is_size_t count then r ← readBuff s buff count; Some r.2 else None
  end.

Fixpoint run (os : list op) (s : state) : option state :=
  match os with
  | [] => Some s
  | o :: os' => s' ← step o s; run os' s'
  end.

(** A well-formed instantiation: [buffer_size] is a [size_t] value and the
    array [T m_dataBuff[buffer_size]] has at least one element. *)
Definition instantiable : Prop := 0 < buffer_size < 2 ^ size_bits.

(** States of a buffer built by the default constructor and used through
    its public interface only. *)
Inductive reachable : state → Prop :=
  | reachable_ctor mem s :
      instantiable →
      length mem = Z.to_nat buffer_size →
      CircularBuffer_ctor mem = Some s →
      reachable s
  | reachable_step o s s' :
      reachable s → step o s = Some s' → reachable s'.

(** ** Predicates of the statements *)

(** The representation invariant of the class on one state: the array has
    [buffer_size] elements and both counters hold [index_t] values. *)
Definition wf (s : state) : Prop :=
  length (m_dataBuff s) = Z.to_nat buffer_size
  ∧ 0 ≤ m_head s < 2 ^ bits idx
  ∧ 0 ≤ m_tail s < 2 ^ bits idx.

(** The counter type can count [buffer_size] elements. *)
Definition counts_capacity : Prop := buffer_size < 2 ^ bits idx.

(** [0 ≤ head - tail ≤ Capacity], the difference taken modulo
    [2 ^ IndexWidth]. *)
Definition occupancy_inv (s : state) : Prop :=
  0 ≤ to_index (m_head s - m_tail s) ≤ buffer_size.

(** [insert] called on each value in turn, all calls returning [true]. *)
Fixpoint insert_all (s : state) (vs : list T) : option state :=
  match vs with
  | [] => Some s
  | v :: vs' =>
      match insert s v with
      | Some (true, s') => insert_all s' vs'
      | _ => None
      end
  end.

(** [n] calls of [remove(T *data)] on the same object [data], all returning
    [true], with the value [data] held after each call. *)
Fixpoint remove_all (n : nat) (s : state) (data : T)
  : option (list T * state) :=
  match n with
  | O => Some ([], s)
  | S n' =>
      match remove_ptr s data with
      | Some (true, v, s') =>
          r ← remove_all n' s' v; Some (v :: r.1, r.2)
      | _ => None
      end
  end.

End CircularBuffer.

Definition is_pow2 (c : Z) : Prop := ∃ k, 0 ≤ k ∧ c = 2 ^ k.

(** ** Concrete buffers *)

(** The instantiation of examples/main.cpp,
    [CircularBuffer<DataPoint, 32, uint8_t>], with integers as elements. *)
Definition demo_size : Z := 32.
Definition demo_index : index_t := uint8_t.
Definition demo_mem : list Z := replicate 32 0.

(** [n] rounds of one [insert] and one [remove] on an empty buffer: both
    counters advance by [n]. *)
Definition cycles (n : nat) : list (@op Z) :=
  mjoin (replicate n [Insert 0; Remove]).

(** After 230 rounds, the values 1 .. 32 are inserted: [m_head] has wrapped
    to 6, the buffer holds [buffer_size] elements, the oldest in slot 6. *)
Definition demo_full_ops : list (@op Z) := cycles 230 ++ (Insert <$> seqZ 1 32).
Definition demo_full : CircularBuffer Z :=
  mkCircularBuffer 6 230 (seqZ 27 6 ++ seqZ 1 26).

(** [demo_full] after one more [insert(33)]. *)
Definition demo_overfull : CircularBuffer Z :=
  mkCircularBuffer 7 230 (seqZ 27 6 ++ 33 :: seqZ 2 25).

(** After 250 rounds, the values 1 .. 10 are inserted: [m_head] has wrapped
    to 4 and 10 elements are pending. *)
Definition demo_wrapped_ops : list (@op Z) := cycles 250 ++ (Insert <$> seqZ 1 10).
Definition demo_wrapped : CircularBuffer Z :=
  mkCircularBuffer 4 250 (seqZ 7 4 ++ replicate 22 0 ++ seqZ 1 6).

(** A buffer of the default counter type with two pending elements. *)
Definition small_mem : list Z := replicate 4 0.
Definition two_pending : CircularBuffer Z := mkCircularBuffer 2 0 [1; 2; 0; 0].

(** [CircularBuffer<T, 256, uint8_t>]: the counter type cannot count 256
    elements.  [byte_wrapped] is the state after the inserts of 1 .. 257. *)
Definition byte_mem : list Z := replicate 256 0.
Definition byte_wrapped : CircularBuffer Z :=
  mkCircularBuffer 1 0 (257 :: seqZ 2 255).

(** [CircularBuffer<T, 384, uint8_t>]: the mask [383] does not fit the
    counter type. *)
Definition wide_mem : list Z := replicate 384 0.

(** ** The rest of the class, and its client examples/main.cpp *)

Section Clients.

Context {T : Type}.
Variable buffer_size : Z.
Variable idx : index_t.

Local Abbreviation state := (CircularBuffer T).

(** [CircularBuffer(int dummy)]: no member is initialised and nothing is
    asserted; [found] is what the storage of the object holds. *)
Definition CircularBuffer_noinit (dummy : Z) (found : state) : state := found.

(** The elements [m_dataBuff[(m_tail + j) & buffer_mask]] for the [n]
    indices [j = i, i + 1, ...]. *)
Fixpoint pending (n : nat) (i : Z) (s : state) : list T :=
  match n with
  | O => []
  | S n' =>
      match load (m_dataBuff s)
              (Z.land (m_tail s + i) (buffer_mask buffer_size idx)) with
      | Some v => v :: pending n' (i + 1) s
      | None => []
      end
  end.

(** The pending elements of a buffer, oldest first: the [readAvailable()]
    elements from [m_tail] on. *)
Definition contents (s : state) : list T :=
  pending (Z.to_nat (readAvailable idx s)) 0 s.

(** examples/main.cpp, one round of the first loop of [main]: if the buffer
    is full one element is removed into [dpr], then [dpw] is inserted.  The
    result holds what [remove] returned (if it was called), what [insert]
    returned, [dpr] and the buffer. *)
Definition main_round (s : state) (dpw dpr : T)
  : option (option bool * bool * T * state) :=
  if isFull buffer_size idx s then
    r ← remove_ptr buffer_size idx s dpr;
    i ← insert_ptr buffer_size idx r.2 dpw;
    Some (Some r.1.1, i.1, r.1.2, i.2)
  else
    i ← insert_ptr buffer_size idx s dpw;
    Some (None, i.1, dpr, i.2).

(** examples/main.cpp, the second loop of [main]:
    [while (readAvailable()) remove(&dpr)].  The result lists what each
    [remove] returned with [dpr] after it; [None] is undefined behaviour or
    the end of the fuel. *)
Fixpoint main_drain (fuel : nat) (s : state) (dpr : T)
  : option (list (bool * T) * state) :=
  if readAvailable idx s =? 0 then Some ([], s)
  else
    match fuel with
    | O => None
    | S fuel' =>
        r ← remove_ptr buffer_size idx s dpr;
        k ← main_drain fuel' r.2 r.1.2;
        Some ((r.1.1, r.1.2) :: k.1, k.2)
    end.

(** examples/main.cpp, the first loop of [main] for the values [dpws] of
    [dpw] in its successive rounds.  The result lists what [remove] (if
    called) and [insert] returned in each round. *)
Fixpoint main_rounds (s : state) (dpws : list T) (dpr : T)
  : option (list (option bool * bool) * T * state) :=
  match dpws with
  | [] => Some ([], dpr, s)
  | dpw :: dpws' =>
      r ← main_round s dpw dpr;
      k ← main_rounds r.2 dpws' r.1.2;
      Some ((r.1.1.1, r.1.1.2) :: k.1.1, k.1.2, k.2)
  end.

End Clients.

(** [void FillStream(int *data, size_t len, int value)] of
    examples/main.cpp; the loop variable [i] is an [unsigned].  [None] is
    undefined behaviour or the end of the fuel. *)
Fixpoint FillStream_loop (fuel : nat) (i : Z) (data : list Z) (len value : Z)
  : option (list Z) :=
  if i <? len then
    match fuel with
    | O => None
    | S fuel' =>
        d ← store data i value;
        FillStream_loop fuel' (wrap int_bits (i + 1)) d len value
    end
  else Some data.

Definition FillStream (fuel : nat) (data : list Z) (len value : Z)
  : option (list Z) :=
  FillStream_loop fuel 0 data len value.

(** ** Arithmetic of the conversions *)

Lemma bits_range idx : 0 < bits idx ≤ size_bits.
Proof. unfold size_bits. destruct idx; simpl; lia. Qed.

Lemma wrap_range w x : 0 ≤ w → 0 ≤ wrap w x < 2 ^ w.
Proof. intros Hw. unfold wrap. apply Z.mod_pos_bound. by apply Z.pow_pos_nonneg. Qed.

Lemma wrap_small w x : 0 ≤ x < 2 ^ w → wrap w x = x.
Proof. intros Hx. unfold wrap. by apply Z.mod_small. Qed.

Lemma wrap_wrap w w' x : 0 ≤ w ≤ w' → wrap w (wrap w' x) = wrap w x.
Proof.
  intros Hw. unfold wrap. apply Z.mod_mod_divide.
  exists (2 ^ (w' - w)). rewrite <- Z.pow_add_r by lia. f_equal. lia.
Qed.

Lemma wrap_add_l w x y : wrap w (wrap w x + y) = wrap w (x + y).
Proof. unfold wrap. apply Zplus_mod_idemp_l. Qed.

Lemma wrap_add_r w x y : wrap w (x + wrap w y) = wrap w (x + y).
Proof. unfold wrap. apply Zplus_mod_idemp_r. Qed.

Lemma wrap_sub_r w x y : wrap w (x - wrap w y) = wrap w (x - y).
Proof. unfold wrap. apply Zminus_mod_idemp_r. Qed.

Lemma to_index_range idx x : 0 ≤ to_index idx x < 2 ^ bits idx.
Proof. apply wrap_range. pose proof (bits_range idx). lia. Qed.

Lemma to_index_small idx x : 0 ≤ x < 2 ^ bits idx → to_index idx x = x.
Proof. apply wrap_small. Qed.

Lemma to_index_to_size idx x : to_index idx (to_size x) = to_index idx x.
Proof. apply wrap_wrap. pose proof (bits_range idx). lia. Qed.

Lemma to_size_range x : 0 ≤ to_size x < 2 ^ size_bits.
Proof. by apply wrap_range. Qed.

Lemma to_size_small x : 0 ≤ x < 2 ^ size_bits → to_size x = x.
Proof. apply wrap_small. Qed.

Lemma pow2_bits_le_size idx : 2 ^ bits idx ≤ 2 ^ size_bits.
Proof. apply Z.pow_le_mono_r; pose proof (bits_range idx); lia. Qed.

(** The test [c & (c - 1) == 0] on a positive number. *)
Lemma land_pred_pow2 c : 0 < c → Z.land c (c - 1) = 0 → is_pow2 c.
Proof.
  intros Hc H. exists (Z.log2 c). split; [apply Z.log2_nonneg|].
  destruct (Z.log2_spec c Hc) as [Hlo Hhi].
  destruct (Z.eq_dec c (2 ^ Z.log2 c)) as [|Hne]; [done|exfalso].
  assert (Hb1 : Z.testbit c (Z.log2 c) = true) by (by apply Z.bit_log2).
  assert (Hl : Z.log2 (c - 1) = Z.log2 c).
  { apply Z.log2_unique; [apply Z.log2_nonneg | lia]. }
  assert (Hb2 : Z.testbit (c - 1) (Z.log2 c) = true).
  { rewrite <- Hl. apply Z.bit_log2.
    pose proof (Z.pow_pos_nonneg 2 (Z.log2 c) eq_refl (Z.log2_nonneg c)). lia. }
  assert (Hb : Z.testbit (Z.land c (c - 1)) (Z.log2 c) = true).
  { by rewrite Z.land_spec, Hb1, Hb2. }
  rewrite H, Z.bits_0 in Hb. discriminate.
Qed.

Lemma pow2_land_pred k : 0 ≤ k → Z.land (2 ^ k) (2 ^ k - 1) = 0.
Proof.
  intros Hk. replace (2 ^ k - 1) with (Z.ones k) by (rewrite Z.ones_equiv; lia).
  rewrite Z.land_ones by done. apply Z.mod_same.
  pose proof (Z.pow_pos_nonneg 2 k eq_refl Hk). lia.
Qed.

(** Only the low [w] bits of [a] meet a mask below [2 ^ w]. *)
Lemma land_wrap_l w a b :
  0 ≤ w → 0 ≤ b < 2 ^ w → Z.land (wrap w a) b = Z.land a b.
Proof.
  intros Hw Hb. unfold wrap. rewrite <- Z.land_ones by done.
  rewrite <- Z.land_assoc, (Z.land_comm (Z.ones w)), Z.land_ones by done.
  by rewrite Z.mod_small.
Qed.

Lemma wrap_pred_0 w b : 0 ≤ w → wrap w b = 0 → wrap w (b - 1) = 2 ^ w - 1.
Proof.
  intros Hw Hb. pose proof (Z.pow_pos_nonneg 2 w eq_refl Hw) as Hp.
  unfold wrap in *. rewrite <- Zminus_mod_idemp_l, Hb.
  replace (0 - 1) with (2 ^ w - 1 + (-1) * 2 ^ w) by lia.
  rewrite Z_mod_plus_full. apply Z.mod_small. lia.
Qed.

Lemma wrap_pred_pos w b : 0 ≤ w → 0 < wrap w b → wrap w (b - 1) = wrap w b - 1.
Proof.
  intros Hw Hb. pose proof (wrap_range w b Hw) as Hr.
  unfold wrap in *. rewrite <- Zminus_mod_idemp_l. apply Z.mod_small. lia.
Qed.

(** ** The mask and the constructor's assertion *)

Section Mask.

Variable buffer_size : Z.
Variable idx : index_t.

Local Abbreviation W := (bits idx).
Local Abbreviation mask := (buffer_mask buffer_size idx).

Lemma buffer_mask_wrap :
  0 < buffer_size ≤ 2 ^ size_bits → mask = wrap W (buffer_size - 1).
Proof.
  intros Hb. unfold buffer_mask, to_index. by rewrite to_size_small by lia.
Qed.

Lemma buffer_mask_fits :
  0 < buffer_size ≤ 2 ^ W → mask = buffer_size - 1.
Proof.
  intros Hb. pose proof (pow2_bits_le_size idx).
  rewrite buffer_mask_wrap by lia. apply wrap_small. lia.
Qed.

Lemma buffer_mask_range : 0 ≤ mask < 2 ^ W.
Proof. apply to_index_range. Qed.

Lemma buffer_mask_lt : instantiable buffer_size → mask < buffer_size.
Proof.
  intros [Hlo Hhi]. rewrite buffer_mask_wrap by lia.
  pose proof (bits_range idx).
  pose proof (Z.mod_le (buffer_size - 1) (2 ^ W)) as Hle. unfold wrap.
  assert (0 < 2 ^ W) by (apply Z.pow_pos_nonneg; lia). lia.
Qed.

(** What the assertion establishes in any instantiation: the mask selects
    the low [m] bits, the [2 ^ m] slots it addresses exist, and the free
    space of an empty buffer, as [index_t], does not exceed them. *)
Lemma mask_ones :
  instantiable buffer_size → ctor_assert buffer_size idx = true →
  ∃ m, 0 ≤ m ≤ W ∧ mask = Z.ones m ∧ 2 ^ m ≤ buffer_size
       ∧ to_index idx buffer_size ≤ 2 ^ m.
Proof.
  intros [Hlo Hhi] Ha. pose proof (bits_range idx) as HW.
  assert (0 < 2 ^ W) as HpW by (apply Z.pow_pos_nonneg; lia).
  unfold ctor_assert in Ha. apply Z.eqb_eq in Ha.
  rewrite buffer_mask_wrap in * by lia. unfold to_index.
  destruct (Z.eq_dec (wrap W buffer_size) 0) as [Hr|Hr].
  - exists W. rewrite wrap_pred_0, Hr, Z.ones_equiv by lia.
    repeat split; try lia.
    unfold wrap in Hr.
    pose proof (Z.div_mod buffer_size (2 ^ W) ltac:(lia)) as Hd.
    rewrite Hr in Hd. generalize dependent (buffer_size / 2 ^ W).
    generalize dependent (2 ^ W). intros z Hz _ z0 ->.
    assert (0 < z0) by nia. nia.
  - pose proof (wrap_range W buffer_size) as Hrr.
    rewrite wrap_pred_pos in * by lia.
    rewrite <- (land_wrap_l W) in Ha by lia.
    apply land_pred_pow2 in Ha as (k & Hk & Hrk); [|lia].
    exists k. rewrite Hrk, Z.ones_equiv.
    assert (k < W) by (apply (Z.pow_lt_mono_r_iff 2); lia).
    repeat split; try lia.
    rewrite <- Hrk. apply Z.mod_le; lia.
Qed.

Lemma ctor_assert_pow2 :
  0 < buffer_size ≤ 2 ^ W →
  ctor_assert buffer_size idx = true ↔ is_pow2 buffer_size.
Proof.
  intros Hb. unfold ctor_assert. rewrite buffer_mask_fits, Z.eqb_eq by done.
  split.
  - apply land_pred_pow2. lia.
  - intros (k & Hk & ->). by apply pow2_land_pred.
Qed.

End Mask.

(** ** Memory accesses *)

Lemma land_bound a b : 0 ≤ a → 0 ≤ b → 0 ≤ Z.land a b ≤ b.
Proof.
  intros Ha Hb. split; [apply Z.land_nonneg; by left|].
  rewrite <- (Z2N.id a), <- (Z2N.id b) at 1 by done.
  rewrite <- N2Z.inj_land. rewrite <- (Z2N.id b) at 2 by done.
  apply N2Z.inj_le, N.land_le_r.
Qed.

Lemma store_Some {A} (a : list A) i v :
  0 ≤ i < Z.of_nat (length a) → store a i v = Some (<[Z.to_nat i := v]> a).
Proof. intros Hi. unfold store. by rewrite decide_True. Qed.

Lemma store_inv {A} (a a' : list A) i v :
  store a i v = Some a' →
  0 ≤ i < Z.of_nat (length a) ∧ a' = <[Z.to_nat i := v]> a.
Proof. unfold store. destruct (decide _); [|done]. by intros [= <-]. Qed.

Lemma load_lookup {A} (a : list A) i :
  0 ≤ i → load a i = a !! Z.to_nat i.
Proof. intros Hi. unfold load. by rewrite decide_True. Qed.

Lemma load_is_Some {A} (a : list A) i :
  0 ≤ i < Z.of_nat (length a) → is_Some (load a i).
Proof.
  intros Hi. rewrite load_lookup by lia. apply lookup_lt_is_Some. lia.
Qed.

Lemma load_inv {A} (a : list A) i v :
  load a i = Some v → 0 ≤ i < Z.of_nat (length a) ∧ a !! Z.to_nat i = Some v.
Proof.
  unfold load. destruct (decide _); [|done]. intros Hv. split; [|done].
  apply lookup_lt_Some in Hv. lia.
Qed.

(** ** Single operations *)

Section Operations.

Context {T : Type}.
Variable buffer_size : Z.
Variable idx : index_t.

Local Abbreviation state := (CircularBuffer T).
Local Abbreviation W := (bits idx).
Local Abbreviation mask := (buffer_mask buffer_size idx).
Local Abbreviation wfs := (@wf T buffer_size idx).
Local Abbreviation inst := (instantiable buffer_size).

Implicit Types (s : state) (v data : T).

Lemma to_index_idem x : to_index idx (to_index idx x) = to_index idx x.
Proof. apply wrap_wrap. pose proof (bits_range idx). lia. Qed.

Lemma readAvailable_eq s :
  readAvailable idx s = to_index idx (m_head s - m_tail s).
Proof.
  unfold readAvailable, head_minus_tail.
  destruct (promoted idx); [done | apply to_index_idem].
Qed.

Lemma readAvailable_range s : 0 ≤ readAvailable idx s < 2 ^ W.
Proof. apply to_index_range. Qed.

Lemma writeAvailable_eq s :
  writeAvailable buffer_size idx s
  = to_index idx (buffer_size - readAvailable idx s).
Proof.
  unfold writeAvailable, readAvailable. rewrite to_index_to_size.
  unfold to_index. rewrite <- (wrap_sub_r _ _ (to_size _)).
  unfold to_size. by rewrite wrap_wrap by (pose proof (bits_range idx); lia).
Qed.

(** Without promotion the difference is compared as the element count. *)
Lemma to_size_head_minus_tail_unpromoted s :
  promoted idx = false →
  to_size (head_minus_tail idx s) = readAvailable idx s.
Proof.
  intros Hp. unfold readAvailable, head_minus_tail. rewrite Hp, to_index_idem.
  apply to_size_small. pose proof (to_index_range idx (m_head s - m_tail s)).
  pose proof (pow2_bits_le_size idx). lia.
Qed.

(** With or without promotion, as long as [m_head] has not wrapped below
    [m_tail]. *)
Lemma to_size_head_minus_tail_ge s :
  wfs s → m_tail s ≤ m_head s →
  to_size (head_minus_tail idx s) = m_head s - m_tail s.
Proof.
  intros (_ & Hh & Ht) Hle. pose proof (pow2_bits_le_size idx).
  unfold head_minus_tail. destruct (promoted idx).
  - apply to_size_small. lia.
  - rewrite to_index_small by lia. apply to_size_small. lia.
Qed.

Lemma empty_iff s : wfs s → isEmpty idx s = true ↔ m_head s = m_tail s.
Proof.
  intros (_ & Hh & Ht). unfold isEmpty. rewrite Z.eqb_eq, readAvailable_eq.
  split.
  - intros H0. destruct (Z_le_gt_dec (m_tail s) (m_head s)).
    + rewrite to_index_small in H0 by lia. lia.
    + unfold to_index, wrap in H0.
      replace (m_head s - m_tail s)
        with (m_head s - m_tail s + 2 ^ W + (-1) * 2 ^ W) in H0 by lia.
      rewrite Z_mod_plus_full, Z.mod_small in H0 by lia. lia.
  - intros ->. rewrite Z.sub_diag. apply to_index_small. lia.
Qed.

Lemma slot_range x :
  inst → 0 ≤ x → 0 ≤ Z.land x mask < buffer_size.
Proof.
  intros Hi Hx. pose proof (buffer_mask_lt buffer_size idx Hi).
  pose proof (buffer_mask_range buffer_size idx).
  pose proof (land_bound x mask). lia.
Qed.

Lemma slot_in_array s x :
  inst → wfs s → 0 ≤ x →
  0 ≤ Z.land x mask < Z.of_nat (length (m_dataBuff s)).
Proof.
  intros Hi (Hl & _) Hx. pose proof (slot_range x Hi Hx).
  rewrite Hl. unfold instantiable in Hi. lia.
Qed.

(** *** [insert] *)

Lemma insert_full s data :
  to_size (head_minus_tail idx s) = buffer_size →
  insert buffer_size idx s data = Some (false, s).
Proof. intros H. unfold insert. by rewrite H, Z.eqb_refl. Qed.

Lemma insert_not_full s data :
  inst → wfs s →
  to_size (head_minus_tail idx s) ≠ buffer_size →
  insert buffer_size idx s data
  = Some (true,
          mkCircularBuffer (to_index idx (m_head s + 1)) (m_tail s)
            (<[Z.to_nat (Z.land (m_head s) mask) := data]> (m_dataBuff s))).
Proof.
  intros Hi Hwf H. unfold insert.
  apply Z.eqb_neq in H. rewrite H.
  rewrite store_Some; [done|]. apply slot_in_array; [done..|]. apply Hwf.
Qed.

Lemma insert_ptr_insert s data :
  insert_ptr buffer_size idx s data = insert buffer_size idx s data.
Proof. reflexivity. Qed.

Lemma insert_inv s data b s' :
  insert buffer_size idx s data = Some (b, s') →
  (b = false ∧ s' = s)
  ∨ (b = true ∧ m_head s' = to_index idx (m_head s + 1)
     ∧ m_tail s' = m_tail s
     ∧ m_dataBuff s'
       = <[Z.to_nat (Z.land (m_head s) mask) := data]> (m_dataBuff s)).
Proof.
  unfold insert. case_match; [naive_solver|].
  destruct (store _ _ _) as [d|] eqn:Hd; simpl; [|done].
  apply store_inv in Hd as [_ ->]. intros [= <- <-]. by right.
Qed.

Lemma insert_wf s data b s' :
  wfs s → insert buffer_size idx s data = Some (b, s') → wfs s'.
Proof.
  intros Hwf [[_ ->]|(_ & Hh & Ht & Hd)]%insert_inv; [done|].
  destruct Hwf as (Hl & Hhr & Htr). unfold wf.
  rewrite Hh, Ht, Hd, length_insert.
  pose proof (to_index_range idx (m_head s + 1)). done.
Qed.

(** *** [remove] and its overloads *)

Lemma remove_ptr_empty s data :
  m_tail s = m_head s → remove_ptr buffer_size idx s data = Some (false, data, s).
Proof. intros H. unfold remove_ptr. by rewrite H, Z.eqb_refl. Qed.

Lemma remove_ptr_nonempty s data :
  inst → wfs s → m_tail s ≠ m_head s →
  ∃ v, load (m_dataBuff s) (Z.land (m_tail s) mask) = Some v
       ∧ remove_ptr buffer_size idx s data
         = Some (true, v,
                 mkCircularBuffer (m_head s) (to_index idx (m_tail s + 1))
                   (m_dataBuff s)).
Proof.
  intros Hi Hwf H. unfold remove_ptr. apply Z.eqb_neq in H. rewrite H.
  destruct (load_is_Some (m_dataBuff s) (Z.land (m_tail s) mask)) as [v Hv].
  { apply slot_in_array; [done..|]. apply Hwf. }
  exists v. by rewrite Hv.
Qed.

Lemma remove_ptr_inv s data b v s' :
  remove_ptr buffer_size idx s data = Some (b, v, s') →
  m_head s' = m_head s ∧ m_dataBuff s' = m_dataBuff s
  ∧ (m_tail s' = m_tail s ∨ m_tail s' = to_index idx (m_tail s + 1)).
Proof.
  unfold remove_ptr. case_match; [naive_solver|].
  destruct (load _ _); simpl; [|done]. intros [= <- <- <-]. naive_solver.
Qed.

Lemma remove_inv s :
  m_head (remove idx s).2 = m_head s
  ∧ m_dataBuff (remove idx s).2 = m_dataBuff s
  ∧ (m_tail (remove idx s).2 = m_tail s
     ∨ m_tail (remove idx s).2 = to_index idx (m_tail s + 1)).
Proof. unfold remove. case_match; naive_solver. Qed.

Lemma remove_cnt_eq s cnt :
  remove_cnt idx s cnt
  = (Z.min cnt (readAvailable idx s),
     mkCircularBuffer (m_head s)
       (to_index idx (m_tail s + Z.min cnt (readAvailable idx s)))
       (m_dataBuff s)).
Proof.
  unfold remove_cnt. fold (readAvailable idx s). rewrite to_index_to_size.
  destruct (Z.gtb_spec cnt (readAvailable idx s)).
  - by rewrite Z.min_r by lia.
  - by rewrite Z.min_l by lia.
Qed.

End Operations.

(** ** The loops of the bulk operations, and reachable states *)

Section Loops.

Context {T : Type}.
Variable buffer_size : Z.
Variable idx : index_t.

Local Abbreviation state := (CircularBuffer T).
Local Abbreviation W := (bits idx).
Local Abbreviation mask := (buffer_mask buffer_size idx).
Local Abbreviation wfs := (@wf T buffer_size idx).
Local Abbreviation inst := (instantiable buffer_size).

Implicit Types (s : state) (v data : T) (buff : list T).

Lemma wf_set_head s h d :
  wfs s → length d = length (m_dataBuff s) →
  wfs (mkCircularBuffer (to_index idx h) (m_tail s) d).
Proof.
  intros (Hl & Hh & Ht) Hd. pose proof (to_index_range idx h).
  unfold wf. simpl. rewrite Hd. done.
Qed.

Lemma wf_set_tail s t :
  wfs s → wfs (mkCircularBuffer (m_head s) (to_index idx t) (m_dataBuff s)).
Proof.
  intros (Hl & Hh & Ht). pose proof (to_index_range idx t). by unfold wf.
Qed.

Lemma write_loop_inv n : ∀ i buff s s',
  write_loop buffer_size idx n i buff s = Some s' →
  wfs s →
  wfs s' ∧ m_tail s' = m_tail s
  ∧ m_head s' = to_index idx (m_head s + Z.of_nat n).
Proof.
  induction n as [|n IH]; intros i buff s s' Hrun Hwf; simpl in Hrun.
  - injection Hrun as <-. split; [done|]. split; [done|].
    rewrite Z.add_0_r. symmetry. apply to_index_small, Hwf.
  - destruct (load buff i) as [v|]; simpl in Hrun; [|done].
    destruct (store _ _ _) as [d|] eqn:Hd; simpl in Hrun; [|done].
    apply store_inv in Hd as [_ ->].
    apply IH in Hrun as (Hwf' & Ht & Hh).
    + split; [done|]. split; [done|]. rewrite Hh. simpl.
      unfold to_index. rewrite wrap_add_l. f_equal. lia.
    + apply wf_set_head; [done|]. by rewrite length_insert.
Qed.

Lemma write_loop_total n : ∀ i buff s,
  inst → wfs s → 0 ≤ i → i + Z.of_nat n ≤ Z.of_nat (length buff) →
  is_Some (write_loop buffer_size idx n i buff s).
Proof.
  induction n as [|n IH]; intros i buff s Hi Hwf Hi0 Hlen; simpl; [done|].
  destruct (load_is_Some buff i) as [v ->]; [lia|]. simpl.
  rewrite store_Some by (apply slot_in_array; [done..|]; apply Hwf). simpl.
  apply IH; [done| |lia..].
  apply wf_set_head; [done|]. by rewrite length_insert.
Qed.

Lemma read_loop_inv n : ∀ i buff s buff' s',
  read_loop buffer_size idx n i buff s = Some (buff', s') →
  wfs s →
  wfs s' ∧ m_head s' = m_head s ∧ m_dataBuff s' = m_dataBuff s
  ∧ m_tail s' = to_index idx (m_tail s + Z.of_nat n)
  ∧ length buff' = length buff.
Proof.
  induction n as [|n IH]; intros i buff s buff' s' Hrun Hwf; simpl in Hrun.
  - injection Hrun as <- <-. do 3 (split; [done|]). split; [|done].
    rewrite Z.add_0_r. symmetry. apply to_index_small, Hwf.
  - destruct (load _ _) as [v|]; simpl in Hrun; [|done].
    destruct (store buff i v) as [b|] eqn:Hb; simpl in Hrun; [|done].
    apply store_inv in Hb as [_ ->].
    apply IH in Hrun as (Hwf' & Hh & Hd & Ht & Hl); [|by apply wf_set_tail].
    simpl in *. rewrite length_insert in Hl.
    do 3 (split; [done|]). split; [|done].
    rewrite Ht. unfold to_index. rewrite wrap_add_l. f_equal. lia.
Qed.

Lemma read_loop_total n : ∀ i buff s,
  inst → wfs s → 0 ≤ i → i + Z.of_nat n ≤ Z.of_nat (length buff) →
  is_Some (read_loop buffer_size idx n i buff s).
Proof.
  induction n as [|n IH]; intros i buff s Hi Hwf Hi0 Hlen; simpl; [done|].
  destruct (load_is_Some (m_dataBuff s) (Z.land (m_tail s) mask)) as [v ->].
  { apply slot_in_array; [done..|]. apply Hwf. }
  simpl. rewrite store_Some by lia. simpl.
  apply IH; [done|by apply wf_set_tail|lia|].
  rewrite length_insert. lia.
Qed.

Lemma step_wf o s s' :
  wfs s → step buffer_size idx o s = Some s' → wfs s'.
Proof.
  intros Hwf.
  destruct o as [|d|d| |cnt|d|d| |i|i|buff count|buff count]; simpl.
  - intros [= <-]. destruct Hwf as (Hl & Hh & _). by unfold wf, clear.
  - destruct (insert _ _ _ _) as [[b s1]|] eqn:Hi; simpl; [|done].
    intros [= <-]. by eapply insert_wf.
  - destruct (insert_ptr _ _ _ _) as [[b s1]|] eqn:Hi; simpl; [|done].
    intros [= <-]. by eapply insert_wf.
  - intros [= <-]. unfold remove. case_match; [done|].
    by apply wf_set_tail.
  - case_match; [|done]. intros [= <-]. by apply wf_set_tail.
  - destruct (remove_ptr _ _ _ _) as [[[b v] s1]|] eqn:Hr; simpl; [|done].
    intros [= <-]. unfold remove_ptr in Hr.
    case_match; [by injection Hr as <- <- <-|].
    destruct (load _ _); simpl in Hr; [|done]. injection Hr as <- <- <-.
    by apply wf_set_tail.
  - destruct (remove_ref _ _ _ _) as [[[b v] s1]|] eqn:Hr; simpl; [|done].
    intros [= <-]. unfold remove_ref, remove_ptr in Hr.
    case_match; [by injection Hr as <- <- <-|].
    destruct (load _ _); simpl in Hr; [|done]. injection Hr as <- <- <-.
    by apply wf_set_tail.
  - unfold peek. case_match; by intros [= <-].
  - case_match; [|done]. unfold at_. case_match; by intros [= <-].
  - case_match; [|done]. by intros [= <-].
  - case_match; [|done]. unfold writeBuff.
    destruct (write_loop _ _ _ _ _ _) as [s1|] eqn:Hw; simpl; [|done].
    intros [= <-]. by apply write_loop_inv in Hw as (? & _).
  - case_match; [|done]. unfold readBuff.
    destruct (read_loop _ _ _ _ _ _) as [[b s1]|] eqn:Hr; simpl; [|done].
    intros [= <-]. by apply read_loop_inv in Hr as (? & _).
Qed.

Lemma reachable_wf s :
  reachable buffer_size idx s →
  inst ∧ ctor_assert buffer_size idx = true ∧ wfs s.
Proof.
  induction 1 as [mem s Hi Hl Hc|o s s' _ (Hi & Ha & Hwf) Hstep].
  - unfold CircularBuffer_ctor in Hc.
    destruct (ctor_assert buffer_size idx); [|done].
    injection Hc as <-.
    assert (0 < 2 ^ W) by (apply Z.pow_pos_nonneg; pose proof (bits_range idx); lia).
    split; [done|]. split; [done|]. unfold wf. simpl. lia.
  - split; [done|]. split; [done|]. by eapply step_wf.
Qed.

Lemma run_reachable os : ∀ s s',
  reachable buffer_size idx s → run buffer_size idx os s = Some s' →
  reachable buffer_size idx s'.
Proof.
  induction os as [|o os IH]; intros s s' Hs; simpl.
  - by intros [= <-].
  - destruct (step _ _ o s) as [s1|] eqn:Hstep; simpl; [|done].
    apply IH. by eapply reachable_step.
Qed.

End Loops.

(** ** The bulk operations as a whole *)

Lemma writeBuff_inv {T} buffer_size idx (s : CircularBuffer T) buff count r s' :
  wf buffer_size idx s →
  writeBuff buffer_size idx s buff count = Some (r, s') →
  r = Z.min count (writeAvailable buffer_size idx s)
  ∧ wf buffer_size idx s' ∧ m_tail s' = m_tail s
  ∧ m_head s' = to_index idx (m_head s + Z.of_nat (Z.to_nat r)).
Proof.
  intros Hwf. unfold writeBuff. fold (writeAvailable buffer_size idx s).
  destruct (write_loop _ _ _ _ _ _) as [s1|] eqn:Hw; simpl; [|done].
  intros [= <- <-]. split.
  - destruct (Z.ltb_spec (writeAvailable buffer_size idx s) count); lia.
  - by apply write_loop_inv in Hw.
Qed.

Lemma writeBuff_total {T} buffer_size idx (s : CircularBuffer T) buff count :
  instantiable buffer_size → wf buffer_size idx s →
  Z.min count (writeAvailable buffer_size idx s) ≤ Z.of_nat (length buff) →
  is_Some (writeBuff buffer_size idx s buff count).
Proof.
  intros Hi Hwf Hlen. unfold writeBuff.
  fold (writeAvailable buffer_size idx s).
  destruct (write_loop_total buffer_size idx
              (Z.to_nat (if writeAvailable buffer_size idx s <? count
                         then writeAvailable buffer_size idx s else count))
              0 buff s) as [s1 ->]; [done..| |done].
  destruct (Z.ltb_spec (writeAvailable buffer_size idx s) count); lia.
Qed.

Lemma readBuff_inv {T} buffer_size idx (s : CircularBuffer T) buff count r buff' s' :
  wf buffer_size idx s →
  readBuff buffer_size idx s buff count = Some (r, buff', s') →
  r = Z.min count (readAvailable idx s)
  ∧ wf buffer_size idx s' ∧ m_head s' = m_head s
  ∧ m_dataBuff s' = m_dataBuff s
  ∧ m_tail s' = to_index idx (m_tail s + Z.of_nat (Z.to_nat r))
  ∧ length buff' = length buff.
Proof.
  intros Hwf. unfold readBuff. fold (readAvailable idx s).
  destruct (read_loop _ _ _ _ _ _) as [[b s1]|] eqn:Hr; simpl; [|done].
  intros [= <- <- <-]. split.
  - destruct (Z.ltb_spec (readAvailable idx s) count); lia.
  - by apply read_loop_inv in Hr.
Qed.

Lemma readBuff_total {T} buffer_size idx (s : CircularBuffer T) buff count :
  instantiable buffer_size → wf buffer_size idx s →
  Z.min count (readAvailable idx s) ≤ Z.of_nat (length buff) →
  is_Some (readBuff buffer_size idx s buff count).
Proof.
  intros Hi Hwf Hlen. unfold readBuff. fold (readAvailable idx s).
  destruct (read_loop_total buffer_size idx
              (Z.to_nat (if readAvailable idx s <? count
                         then readAvailable idx s else count))
              0 buff s) as [[b s1] ->]; [done..| |done].
  destruct (Z.ltb_spec (readAvailable idx s) count); lia.
Qed.

Lemma insert_total {T} buffer_size idx (s : CircularBuffer T) data :
  instantiable buffer_size → wf buffer_size idx s →
  ∃ b s', insert buffer_size idx s data = Some (b, s')
          ∧ m_tail s' = m_tail s.
Proof.
  intros Hi Hwf.
  destruct (Z.eq_dec (to_size (head_minus_tail idx s)) buffer_size) as [E|E].
  - exists false, s. by rewrite insert_full.
  - eexists true, _. by rewrite insert_not_full.
Qed.

Lemma remove_ptr_total {T} buffer_size idx (s : CircularBuffer T) data :
  instantiable buffer_size → wf buffer_size idx s →
  ∃ b v s', remove_ptr buffer_size idx s data = Some (b, v, s')
            ∧ m_head s' = m_head s ∧ m_dataBuff s' = m_dataBuff s.
Proof.
  intros Hi Hwf. destruct (Z.eq_dec (m_tail s) (m_head s)) as [E|E].
  - exists false, data, s. by rewrite remove_ptr_empty.
  - destruct (remove_ptr_nonempty buffer_size idx s data) as (v & _ & ->);
      [done..|]. by eexists true, v, _.
Qed.

(** ** Which slots the loops touch *)

Lemma mod_add_ne R a d : 0 < d < R → (a + d) mod R ≠ a mod R.
Proof.
  intros Hd Heq.
  assert (H0 : (a + d - a) mod R = 0).
  { rewrite Zminus_mod, Heq, Z.sub_diag. apply Z.mod_0_l. lia. }
  replace (a + d - a) with d in H0 by lia.
  rewrite Z.mod_small in H0; lia.
Qed.

Section Slots.

Context {T : Type}.
Variable buffer_size : Z.
Variable idx : index_t.

Local Abbreviation state := (CircularBuffer T).
Local Abbreviation W := (bits idx).
Local Abbreviation mask := (buffer_mask buffer_size idx).
Local Abbreviation wfs := (@wf T buffer_size idx).
Local Abbreviation inst := (instantiable buffer_size).
Local Abbreviation slot := (λ x : Z, Z.to_nat (Z.land x mask)).

Implicit Types (s : state) (v data : T) (buff : list T).

(** A counter and its unwrapped value select the same slot. *)
Lemma slot_to_index_add x j :
  Z.land (to_index idx x + j) mask = Z.land (x + j) mask.
Proof.
  pose proof (bits_range idx). pose proof (buffer_mask_range buffer_size idx).
  rewrite <- (land_wrap_l W (to_index idx x + j)) by lia.
  unfold to_index. rewrite wrap_add_l. apply land_wrap_l; lia.
Qed.

Lemma slot_ne m a d :
  0 ≤ m → mask = Z.ones m → 0 ≤ a → 0 < d < 2 ^ m →
  slot (a + d) ≠ slot a.
Proof.
  intros Hm Hmask Ha Hd Heq. rewrite Hmask, !Z.land_ones in Heq by done.
  apply (mod_add_ne (2 ^ m) a d Hd).
  pose proof (Z.mod_pos_bound a (2 ^ m)).
  pose proof (Z.mod_pos_bound (a + d) (2 ^ m)). lia.
Qed.

Lemma write_loop_untouched n : ∀ i buff s s' (p : nat),
  write_loop buffer_size idx n i buff s = Some s' →
  (∀ j, 0 ≤ j < Z.of_nat n → p ≠ slot (m_head s + j)) →
  m_dataBuff s' !! p = m_dataBuff s !! p.
Proof.
  induction n as [|n IH]; intros i buff s s' p Hrun Hp; simpl in Hrun.
  - by injection Hrun as <-.
  - destruct (load buff i) as [v|]; simpl in Hrun; [|done].
    destruct (store _ _ _) as [d|] eqn:Hd; simpl in Hrun; [|done].
    apply store_inv in Hd as [_ ->].
    rewrite (IH _ _ _ _ p Hrun); simpl.
    + apply list_lookup_insert_ne. specialize (Hp 0).
      rewrite Z.add_0_r in Hp. intros E. apply Hp; [lia|done].
    + intros j Hj. rewrite slot_to_index_add.
      replace (m_head s + 1 + j) with (m_head s + (j + 1)) by lia.
      apply Hp. lia.
Qed.

(** Element [j] of the source is in its slot after the loop unless a later
    element wrapped onto it. *)
Lemma write_loop_stored m n : ∀ i buff s s' j,
  inst → wfs s → 0 ≤ m → mask = Z.ones m → 0 ≤ i →
  write_loop buffer_size idx n i buff s = Some s' →
  0 ≤ j < Z.of_nat n → Z.of_nat n - j ≤ 2 ^ m →
  m_dataBuff s' !! slot (m_head s + j) = buff !! Z.to_nat (i + j).
Proof.
  intros i buff s s' j Hi Hwf Hm Hmask. revert i buff s s' j Hwf.
  induction n as [|n IH]; intros i buff s s' j Hwf Hi0 Hrun Hj Hroom;
    simpl in Hrun; [lia|].
  destruct (load buff i) as [v|] eqn:Hv; simpl in Hrun; [|done].
  destruct (store _ _ _) as [d|] eqn:Hd; simpl in Hrun; [|done].
  apply store_inv in Hd as [Hslot ->]. apply load_inv in Hv as [_ Hv].
  destruct (Z.eq_dec j 0) as [->|Hj0].
  - rewrite !Z.add_0_r, Hv.
    rewrite (write_loop_untouched _ _ _ _ _ _ Hrun); simpl.
    + apply list_lookup_insert_eq. lia.
    + intros j Hj'. rewrite slot_to_index_add.
      replace (m_head s + 1 + j) with (m_head s + (1 + j)) by lia.
      apply not_eq_sym, (slot_ne m); [done..|apply Hwf|lia].
  - replace (m_head s + j) with (m_head s + 1 + (j - 1)) by lia.
    rewrite <- (slot_to_index_add (m_head s + 1) (j - 1)).
    replace (i + j) with (i + 1 + (j - 1)) by lia.
    refine (IH (i + 1) buff _ s' (j - 1) _ ltac:(lia) Hrun ltac:(lia) ltac:(lia)).
    apply wf_set_head; [done|]. by rewrite length_insert.
Qed.

(** The loop reads the source up to index [i + n] only. *)
Lemma write_loop_take n : ∀ i buff s k,
  0 ≤ i → i + Z.of_nat n ≤ Z.of_nat k →
  write_loop buffer_size idx n i (take k buff) s
  = write_loop buffer_size idx n i buff s.
Proof.
  induction n as [|n IH]; intros i buff s k Hi Hk; simpl; [done|].
  rewrite !load_lookup, lookup_take_lt by lia.
  destruct (buff !! Z.to_nat i) as [v|]; simpl; [|done].
  destruct (store _ _ _); simpl; [|done]. apply IH; lia.
Qed.

Lemma read_loop_dest n : ∀ i buff s buff' s',
  0 ≤ i →
  read_loop buffer_size idx n i buff s = Some (buff', s') →
  (∀ j, 0 ≤ j < Z.of_nat n →
     buff' !! Z.to_nat (i + j) = m_dataBuff s !! slot (m_tail s + j))
  ∧ (∀ p : nat, (p < Z.to_nat i ∨ Z.to_nat i + n ≤ p)%nat →
       buff' !! p = buff !! p).
Proof.
  induction n as [|n IH]; intros i buff s buff' s' Hi0 Hrun; simpl in Hrun.
  - injection Hrun as <- <-. split; [lia|done].
  - destruct (load _ _) as [v|] eqn:Hv; simpl in Hrun; [|done].
    destruct (store buff i v) as [b|] eqn:Hb; simpl in Hrun; [|done].
    apply store_inv in Hb as [Hin ->]. apply load_inv in Hv as [_ Hv].
    apply IH in Hrun as [Hread Hrest]; [|lia]. simpl in Hread.
    assert (Hout : ∀ p : nat, (p < Z.to_nat i ∨ Z.to_nat i + S n ≤ p)%nat →
                     buff' !! p = buff !! p).
    { intros p Hp. rewrite Hrest by lia. apply list_lookup_insert_ne. lia. }
    split; [|done]. intros j Hj.
    destruct (Z.eq_dec j 0) as [->|Hj0].
    + rewrite !Z.add_0_r, Hv, Hrest by lia.
      apply list_lookup_insert_eq. lia.
    + replace (i + j) with (i + 1 + (j - 1)) by lia.
      rewrite Hread by lia. rewrite slot_to_index_add.
      do 3 f_equal. lia.
Qed.

End Slots.

(** ** Bulk write and bulk read *)

Lemma to_index_add_sub idx h c :
  to_index idx (to_index idx (h + c) - h) = to_index idx c.
Proof.
  unfold to_index.
  replace (wrap (bits idx) (h + c) - h)
    with (wrap (bits idx) (h + c) + - h) by lia.
  rewrite wrap_add_l. f_equal. lia.
Qed.

(** ** First in, first out *)

Section Fifo.

Context {T : Type}.
Variable buffer_size : Z.
Variable idx : index_t.

Local Abbreviation state := (CircularBuffer T).
Local Abbreviation W := (bits idx).
Local Abbreviation mask := (buffer_mask buffer_size idx).
Local Abbreviation wfs := (@wf T buffer_size idx).

Hypothesis Hinst : instantiable buffer_size.
Hypothesis Hcounts : counts_capacity buffer_size idx.
Hypothesis Hassert : ctor_assert buffer_size idx = true.

Implicit Types (s : state) (v data : T) (vs : list T).

(** Below the capacity a counter is its own slot. *)
Lemma slot_below_capacity x : 0 ≤ x < buffer_size → Z.land x mask = x.
Proof using Hinst Hcounts Hassert.
  intros Hx. unfold counts_capacity, instantiable in *.
  rewrite buffer_mask_fits by lia.
  apply ctor_assert_pow2 in Hassert as (k & Hk & Hpow); [|lia].
  replace (buffer_size - 1) with (Z.ones k) by (rewrite Z.ones_equiv; lia).
  rewrite Z.land_ones by done. apply Z.mod_small. lia.
Qed.

(** While [m_tail] is 0 the successful inserts fill the array from the
    front. *)
Lemma insert_all_from_front vs : ∀ s s',
  wfs s → m_tail s = 0 → m_head s ≤ buffer_size →
  insert_all buffer_size idx s vs = Some s' →
  wfs s' ∧ m_tail s' = 0
  ∧ m_head s' = m_head s + Z.of_nat (length vs)
  ∧ m_head s' ≤ buffer_size
  ∧ take (Z.to_nat (m_head s')) (m_dataBuff s')
    = take (Z.to_nat (m_head s)) (m_dataBuff s) ++ vs.
Proof using Hinst Hcounts Hassert.
  induction vs as [|v vs IH]; intros s s' Hwf Ht Hh Hrun; simpl in Hrun.
  - injection Hrun as <-. rewrite app_nil_r.
    split; [done|]. split; [done|]. split; [simpl; lia|]. by split.
  - destruct (insert buffer_size idx s v) as [[[|] s1]|] eqn:Hins; [|done..].
    pose proof (insert_wf _ _ _ _ _ _ Hwf Hins) as Hwf1.
    pose proof Hwf as (Hlen & Hhr & _).
    assert (Hlt : m_head s < buffer_size).
    { destruct (Z.eq_dec (m_head s) buffer_size) as [E|E]; [|lia].
      rewrite insert_full in Hins; [done|].
      rewrite (to_size_head_minus_tail_ge buffer_size) by (done || lia). lia. }
    apply insert_inv in Hins as [[? _]|(_ & Hh1 & Ht1 & Hd1)]; [done|].
    unfold counts_capacity in Hcounts.
    rewrite to_index_small in Hh1 by lia.
    rewrite slot_below_capacity in Hd1 by lia.
    apply IH in Hrun as (Hwf' & Ht' & Hh' & Hle' & Htake); [|done|lia..].
    split; [done|]. split; [done|]. split; [simpl length; lia|].
    split; [done|]. rewrite Htake, Hh1, Hd1, Z2Nat.inj_add by lia.
    rewrite Nat.add_1_r.
    rewrite (take_S_r _ _ v).
    + rewrite take_insert_ge by done. by rewrite <- app_assoc.
    + apply list_lookup_insert_eq. lia.
Qed.

(** Removing [n] pending elements of an unwrapped buffer reads the array
    from [m_tail] on. *)
Lemma remove_all_from_tail n : ∀ s data,
  wfs s → m_tail s + Z.of_nat n ≤ m_head s → m_head s ≤ buffer_size →
  remove_all buffer_size idx n s data
  = Some (take n (drop (Z.to_nat (m_tail s)) (m_dataBuff s)),
          mkCircularBuffer (m_head s) (m_tail s + Z.of_nat n) (m_dataBuff s)).
Proof using Hinst Hcounts Hassert.
  induction n as [|n IH]; intros s data Hwf Hn Hh; simpl remove_all.
  - rewrite Z.add_0_r. by destruct s.
  - pose proof Hwf as (Hlen & _ & Htr).
    destruct (remove_ptr_nonempty buffer_size idx s data)
      as (v & Hv & ->); [done..|lia|].
    rewrite slot_below_capacity in Hv by lia.
    apply load_inv in Hv as [_ Hv].
    unfold counts_capacity in Hcounts.
    rewrite to_index_small by lia.
    rewrite IH; simpl; [| |lia..].
    + rewrite Z2Nat.inj_add, Nat.add_1_r by lia.
      rewrite (drop_S _ v (Z.to_nat (m_tail s))) by done. simpl.
      do 3 f_equal. lia.
    + destruct Hwf as (? & ? & ?). unfold wf. simpl. lia.
Qed.

End Fifo.

(** ** The instantiation of examples/main.cpp after its counter wrapped *)

Lemma demo_ctor :
  CircularBuffer_ctor demo_size demo_index demo_mem
  = Some (mkCircularBuffer 0 0 demo_mem).
Proof. reflexivity. Qed.

Lemma demo_new_reachable :
  reachable demo_size demo_index (mkCircularBuffer 0 0 demo_mem).
Proof.
  apply (reachable_ctor demo_size demo_index demo_mem); [|done..].
  unfold instantiable, demo_size, size_bits. lia.
Qed.

Lemma demo_full_run :
  run demo_size demo_index demo_full_ops (mkCircularBuffer 0 0 demo_mem)
  = Some demo_full.
Proof. vm_compute. reflexivity. Qed.

Lemma demo_full_reachable : reachable demo_size demo_index demo_full.
Proof.
  exact (run_reachable _ _ _ _ _ demo_new_reachable demo_full_run).
Qed.

Lemma demo_overfull_reachable : reachable demo_size demo_index demo_overfull.
Proof.
  apply (reachable_step _ _ (Insert 33) demo_full); [|done].
  apply demo_full_reachable.
Qed.

Lemma demo_wrapped_run :
  run demo_size demo_index demo_wrapped_ops (mkCircularBuffer 0 0 demo_mem)
  = Some demo_wrapped.
Proof. vm_compute. reflexivity. Qed.

Lemma demo_wrapped_reachable : reachable demo_size demo_index demo_wrapped.
Proof.
  exact (run_reachable _ _ _ _ _ demo_new_reachable demo_wrapped_run).
Qed.

(** ** Buffers of the default counter type *)

Lemma two_pending_reachable : reachable 4 uint64_t two_pending.
Proof.
  apply (run_reachable 4 uint64_t [Insert 1; Insert 2]
           (mkCircularBuffer 0 0 small_mem)); [|done].
  apply (reachable_ctor 4 uint64_t small_mem); [|done..].
  unfold instantiable, size_bits. lia.
Qed.

(** The scenario of the specification with capacity 4: the inserts of 1, 2,
    3, 4 succeed, the insert of 5 fails on the full buffer, one remove
    yields 1, the insert of 5 then succeeds, four removes yield 2, 3, 4, 5
    and a fifth one fails on the empty buffer. *)
Example scenario_capacity_4 :
  insert_all 4 uint64_t (mkCircularBuffer 0 0 small_mem) [1; 2; 3; 4]
  = Some (mkCircularBuffer 4 0 [1; 2; 3; 4])
  ∧ insert 4 uint64_t (mkCircularBuffer 4 0 [1; 2; 3; 4]) 5
    = Some (false, mkCircularBuffer 4 0 [1; 2; 3; 4])
  ∧ isFull 4 uint64_t (mkCircularBuffer 4 0 [1; 2; 3; 4]) = true
  ∧ remove_ptr 4 uint64_t (mkCircularBuffer 4 0 [1; 2; 3; 4]) 0
    = Some (true, 1, mkCircularBuffer 4 1 [1; 2; 3; 4])
  ∧ isFull 4 uint64_t (mkCircularBuffer 4 1 [1; 2; 3; 4]) = false
  ∧ insert 4 uint64_t (mkCircularBuffer 4 1 [1; 2; 3; 4]) 5
    = Some (true, mkCircularBuffer 5 1 [5; 2; 3; 4])
  ∧ remove_all 4 uint64_t 4 (mkCircularBuffer 5 1 [5; 2; 3; 4]) 0
    = Some ([2; 3; 4; 5], mkCircularBuffer 5 5 [5; 2; 3; 4])
  ∧ remove_ptr 4 uint64_t (mkCircularBuffer 5 5 [5; 2; 3; 4]) 5
    = Some (false, 5, mkCircularBuffer 5 5 [5; 2; 3; 4])
  ∧ isEmpty uint64_t (mkCircularBuffer 5 5 [5; 2; 3; 4]) = true.
Proof. by vm_compute. Qed.

Lemma small_new_reachable :
  reachable 4 uint64_t (mkCircularBuffer 0 0 small_mem).
Proof.
  apply (reachable_ctor 4 uint64_t small_mem); [|done..].
  unfold instantiable, size_bits. lia.
Qed.

(** ** A capacity that is not a power of two *)

Lemma not_pow2_384 : ¬ is_pow2 384.
Proof.
  intros (k & Hk & H). destruct (Z_lt_le_dec k 9) as [Hlt|Hge].
  - pose proof (Z.pow_le_mono_r 2 k 8). lia.
  - pose proof (Z.pow_le_mono_r 2 9 k). lia.
Qed.

(** ** Counter types that are not promoted *)

(** For [uint32_t] and [uint64_t] the difference [m_head - m_tail] is
    computed in [index_t] itself: the tests of [insert] and [at] then
    compare the element count, and the occupancy bound is an invariant of
    the public interface. *)

Section Unpromoted.

Context {T : Type}.
Variable buffer_size : Z.
Variable idx : index_t.

Local Abbreviation state := (CircularBuffer T).
Local Abbreviation wfs := (@wf T buffer_size idx).
Local Abbreviation inv := (@occupancy_inv T buffer_size idx).

Hypothesis Hinst : instantiable buffer_size.
Hypothesis Hcounts : counts_capacity buffer_size idx.
Hypothesis Hunpromoted : promoted idx = false.

Implicit Types (s : state) (data : T) (d : list T).

Lemma occupancy_inv_readAvailable s :
  inv s ↔ readAvailable idx s ≤ buffer_size.
Proof using Type.
  unfold occupancy_inv. rewrite <- readAvailable_eq.
  pose proof (readAvailable_range idx s). lia.
Qed.

Lemma readAvailable_head_add s k d :
  readAvailable idx (mkCircularBuffer (to_index idx (m_head s + k)) (m_tail s) d)
  = to_index idx (readAvailable idx s + k).
Proof using Type.
  rewrite !readAvailable_eq. simpl. unfold to_index.
  replace (wrap (bits idx) (m_head s + k) - m_tail s)
    with (wrap (bits idx) (m_head s + k) + - m_tail s) by lia.
  rewrite !wrap_add_l. f_equal. lia.
Qed.

Lemma readAvailable_tail_add s k d :
  readAvailable idx (mkCircularBuffer (m_head s) (to_index idx (m_tail s + k)) d)
  = to_index idx (readAvailable idx s - k).
Proof using Type.
  rewrite !readAvailable_eq. simpl. unfold to_index.
  rewrite wrap_sub_r.
  replace (wrap (bits idx) (m_head s - m_tail s) - k)
    with (wrap (bits idx) (m_head s - m_tail s) + - k) by lia.
  rewrite wrap_add_l. f_equal. lia.
Qed.

Lemma writeAvailable_inv s :
  inv s → writeAvailable buffer_size idx s = buffer_size - readAvailable idx s.
Proof using Hcounts.
  intros Hinv%occupancy_inv_readAvailable. rewrite writeAvailable_eq.
  pose proof (readAvailable_range idx s). unfold counts_capacity in Hcounts.
  apply to_index_small. lia.
Qed.

Lemma insert_on_full_unpromoted s data :
  readAvailable idx s = buffer_size →
  insert buffer_size idx s data = Some (false, s).
Proof using Hunpromoted.
  intros Hfull. apply insert_full.
  by rewrite to_size_head_minus_tail_unpromoted.
Qed.

Lemma at_beyond_pending_unpromoted s index :
  readAvailable idx s ≤ index → at_ buffer_size idx s index = (NULL, s).
Proof using Hunpromoted.
  intros Hi. unfold at_. rewrite to_size_head_minus_tail_unpromoted by done.
  by rewrite (proj2 (Z.leb_le _ _)).
Qed.

Lemma remove_tail_inv s :
  wfs s → inv s → m_tail s ≠ m_head s →
  inv (mkCircularBuffer (m_head s) (to_index idx (m_tail s + 1)) (m_dataBuff s)).
Proof using Type.
  intros Hwf Hinv Hne. apply occupancy_inv_readAvailable.
  apply occupancy_inv_readAvailable in Hinv.
  rewrite readAvailable_tail_add.
  pose proof (readAvailable_range idx s).
  assert (readAvailable idx s ≠ 0).
  { intros H0. apply Hne. symmetry.
    apply (empty_iff buffer_size idx s Hwf). unfold isEmpty. by rewrite H0. }
  rewrite to_index_small; lia.
Qed.

Lemma step_occupancy_inv o s s' :
  wfs s → inv s → step buffer_size idx o s = Some s' → inv s'.
Proof using Hinst Hcounts Hunpromoted.
  intros Hwf Hinv. pose proof Hinv as Hra%occupancy_inv_readAvailable.
  pose proof (readAvailable_range idx s) as Hrange.
  unfold counts_capacity in Hcounts.
  assert (Hins : ∀ data r, insert buffer_size idx s data = Some r → inv r.2).
  { intros data r.
    destruct (Z.eq_dec (readAvailable idx s) buffer_size) as [E|E].
    - rewrite insert_on_full_unpromoted by done. by intros [= <-].
    - rewrite insert_not_full; [|done..|by rewrite to_size_head_minus_tail_unpromoted].
      intros [= <-]. simpl. apply occupancy_inv_readAvailable.
      rewrite readAvailable_head_add, to_index_small; lia. }
  assert (Hrem : ∀ data r, remove_ptr buffer_size idx s data = Some r → inv r.2).
  { intros data r. destruct (Z.eq_dec (m_tail s) (m_head s)) as [E|E].
    - rewrite remove_ptr_empty by done. by intros [= <-].
    - destruct (remove_ptr_nonempty buffer_size idx s data) as (v & _ & ->);
        [done..|]. intros [= <-]. by apply remove_tail_inv. }
  destruct o as [|d|d| |cnt|d|d| |i|i|buff count|buff count]; simpl.
  - intros [= <-]. apply occupancy_inv_readAvailable. unfold clear.
    rewrite readAvailable_eq. simpl. rewrite Z.sub_diag, to_index_small; lia.
  - destruct (insert _ _ _ _) as [r|] eqn:Hi; simpl; [|done].
    intros [= <-]. by eapply Hins.
  - destruct (insert_ptr _ _ _ _) as [r|] eqn:Hi; simpl; [|done].
    intros [= <-]. by eapply Hins.
  - intros [= <-]. unfold remove.
    destruct (Z.eqb_spec (m_tail s) (m_head s)); [done|].
    by apply remove_tail_inv.
  - destruct (is_size_t cnt) eqn:Hc; [|done]. intros [= <-].
    apply andb_true_iff in Hc as [Hc0%Z.leb_le _].
    pose proof (remove_cnt_eq idx s cnt) as Heq. unfold remove_cnt in Heq.
    injection Heq as _ ->. apply occupancy_inv_readAvailable.
    rewrite readAvailable_tail_add, to_index_small; lia.
  - destruct (remove_ptr _ _ _ _) as [r|] eqn:Hr; simpl; [|done].
    intros [= <-]. by eapply Hrem.
  - destruct (remove_ref _ _ _ _) as [r|] eqn:Hr; simpl; [|done].
    intros [= <-]. by eapply Hrem.
  - unfold peek. case_match; by intros [= <-].
  - case_match; [|done]. unfold at_. case_match; by intros [= <-].
  - case_match; [|done]. by intros [= <-].
  - case_match; [|done].
    destruct (writeBuff _ _ _ _ _) as [[r s1]|] eqn:Hw; simpl; [|done].
    intros [= <-].
    apply writeBuff_inv in Hw as (Hr & _ & Ht & Hh); [|done].
    rewrite writeAvailable_inv in Hr by done.
    apply occupancy_inv_readAvailable.
    destruct s1 as [h1 t1 d1]. simpl in *. subst h1 t1.
    rewrite readAvailable_head_add, to_index_small; lia.
  - case_match; [|done].
    destruct (readBuff _ _ _ _ _) as [[[r b] s1]|] eqn:Hr; simpl; [|done].
    intros [= <-].
    apply readBuff_inv in Hr as (Hr & _ & Hh & _ & Ht & _); [|done].
    apply occupancy_inv_readAvailable.
    destruct s1 as [h1 t1 d1]. simpl in *. subst h1 t1.
    rewrite readAvailable_tail_add, to_index_small; lia.
Qed.

Lemma reachable_occupancy_inv s : reachable buffer_size idx s → inv s.
Proof using Hinst Hcounts Hunpromoted.
  intros Hs. pose proof Hs as Hs'.
  induction Hs as [mem s Hi Hl Hc|o s s' Hs IH Hstep].
  - unfold CircularBuffer_ctor in Hc.
    destruct (ctor_assert buffer_size idx); [|done]. injection Hc as <-.
    apply occupancy_inv_readAvailable. rewrite readAvailable_eq. simpl.
    unfold instantiable in Hi.
    rewrite Z.sub_diag, to_index_small; [lia|].
    pose proof (to_index_range idx 0). unfold counts_capacity in Hcounts. lia.
  - eapply step_occupancy_inv; [|by apply IH|done].
    by apply reachable_wf in Hs as (_ & _ & ?).
Qed.

Lemma occupancy_sum_unpromoted s :
  reachable buffer_size idx s →
  readAvailable idx s + writeAvailable buffer_size idx s = buffer_size.
Proof using Hinst Hcounts Hunpromoted.
  intros Hs%reachable_occupancy_inv. rewrite writeAvailable_inv by done. lia.
Qed.

End Unpromoted.

(** ** The in-range half of [at] *)

(** For every counter type, [at(index)] with [index < readAvailable()]
    returns the address of [m_dataBuff[(m_tail + index) & buffer_mask]] and
    leaves the state as it was. *)
Lemma at_pending {T} buffer_size idx (s : CircularBuffer T) index :
  wf buffer_size idx s →
  0 ≤ index < readAvailable idx s →
  at_ buffer_size idx s index
  = (Elem (Z.land (m_tail s + index) (buffer_mask buffer_size idx)), s).
Proof.
  intros (_ & Hh & Ht) Hi. unfold at_.
  pose proof (readAvailable_range idx s) as Hra.
  pose proof (buffer_mask_range buffer_size idx) as Hm.
  pose proof (pow2_bits_le_size idx) as Hle.
  assert (Hcmp : (to_size (head_minus_tail idx s) <=? index) = false).
  { apply Z.leb_gt. unfold head_minus_tail.
    destruct (promoted idx) eqn:Hp.
    - destruct (Z_le_gt_dec (m_tail s) (m_head s)) as [Hge|Hlt].
      + rewrite readAvailable_eq, to_index_small in Hi by lia.
        rewrite to_size_small; lia.
      + assert (2 ^ bits idx ≤ 2 ^ 31).
        { unfold promoted, int_bits in Hp. apply Z.ltb_lt in Hp.
          apply Z.pow_le_mono_r; lia. }
        unfold to_size, wrap, size_bits in *.
        replace (m_head s - m_tail s)
          with (m_head s - m_tail s + 2 ^ 64 + (-1) * 2 ^ 64) by lia.
        rewrite Z_mod_plus_full, Z.mod_small; lia.
    - rewrite <- readAvailable_eq, to_size_small; lia. }
  rewrite Hcmp. do 2 f_equal. apply land_wrap_l; [done|lia].
Qed.

(** ** Promoted counter types after [m_head] has wrapped *)

(** For [uint8_t] and [uint16_t] the difference [m_head - m_tail] is a
    negative [int] as soon as [m_head] has wrapped below [m_tail]; it then
    compares as a [size_t] above [2 ^ 63]. *)
Lemma to_size_head_minus_tail_wrapped {T} buffer_size idx (s : CircularBuffer T) :
  promoted idx = true → wf buffer_size idx s → m_head s < m_tail s →
  to_size (head_minus_tail idx s) = 2 ^ 64 + (m_head s - m_tail s)
  ∧ 2 ^ 63 < to_size (head_minus_tail idx s).
Proof.
  intros Hp (_ & Hh & Ht) Hlt. unfold head_minus_tail. rewrite Hp.
  assert (2 ^ bits idx ≤ 2 ^ 31).
  { unfold promoted, int_bits in Hp. apply Z.ltb_lt in Hp.
    apply Z.pow_le_mono_r; lia. }
  assert (Heq : to_size (m_head s - m_tail s) = 2 ^ 64 + (m_head s - m_tail s)).
  { unfold to_size, wrap, size_bits.
    replace (m_head s - m_tail s)
      with (m_head s - m_tail s + 2 ^ 64 + (-1) * 2 ^ 64) at 1 by lia.
    rewrite Z_mod_plus_full, Z.mod_small; lia. }
  rewrite Heq. lia.
Qed.

(** In that situation [insert] never reports a full buffer. *)
Lemma insert_wrapped_promoted {T} buffer_size idx (s : CircularBuffer T) data :
  instantiable buffer_size → counts_capacity buffer_size idx →
  promoted idx = true → wf buffer_size idx s → m_head s < m_tail s →
  ∃ s', insert buffer_size idx s data = Some (true, s').
Proof.
  intros Hi Hc Hp Hwf Hlt.
  destruct (to_size_head_minus_tail_wrapped buffer_size idx s Hp Hwf Hlt)
    as [_ Hbig].
  eexists. apply insert_not_full; [done..|].
  unfold counts_capacity in Hc.
  assert (2 ^ bits idx ≤ 2 ^ 31).
  { unfold promoted, int_bits in Hp. apply Z.ltb_lt in Hp.
    apply Z.pow_le_mono_r; lia. }
  lia.
Qed.

(** And [at] never returns [NULL] for an index below [2 ^ 63]. *)
Lemma at_wrapped_promoted {T} buffer_size idx (s : CircularBuffer T) index :
  promoted idx = true → wf buffer_size idx s → m_head s < m_tail s →
  index ≤ 2 ^ 63 →
  (at_ buffer_size idx s index).1 ≠ NULL.
Proof.
  intros Hp Hwf Hlt Hi.
  destruct (to_size_head_minus_tail_wrapped buffer_size idx s Hp Hwf Hlt)
    as [_ Hbig].
  unfold at_. by rewrite (proj2 (Z.leb_gt _ _)) by lia.
Qed.

(** * The properties of the specification, C1 to C10 *)

(** ** C1: first in, first out *)

(** C1, as amended.  In an instantiation whose counter type can count
    [buffer_size] elements ([buffer_size < 2 ^ bits idx]), take the buffer
    [s0] made by the default constructor and any values [vs] whose inserts
    all return [true], with no remove in between.  Then [length vs] calls
    of [remove(T *data)] all return [true] and the values they store are
    [vs], in the order of insertion; the buffer is empty afterwards. *)
Theorem fifo_order (T : Type) (buffer_size : Z) (idx : index_t)
    (mem vs : list T) (s0 s : CircularBuffer T) (data : T) :
  instantiable buffer_size →
  counts_capacity buffer_size idx →
  length mem = Z.to_nat buffer_size →
  CircularBuffer_ctor buffer_size idx mem = Some s0 →
  insert_all buffer_size idx s0 vs = Some s →
  ∃ s', remove_all buffer_size idx (length vs) s data = Some (vs, s')
        ∧ isEmpty idx s' = true.
Proof.
  intros Hi Hc Hlen Hctor Hins. unfold CircularBuffer_ctor in Hctor.
  destruct (ctor_assert buffer_size idx) eqn:Ha; [|done].
  injection Hctor as <-.
  assert (Hwf0 : wf buffer_size idx (mkCircularBuffer 0 0 mem)).
  { assert (0 < 2 ^ bits idx)
      by (apply Z.pow_pos_nonneg; pose proof (bits_range idx); lia).
    unfold wf. simpl. lia. }
  apply (insert_all_from_front buffer_size idx Hi Hc Ha) in Hins
    as (Hwf & Ht & Hh & Hle & Htake);
    [|done|done|simpl; unfold instantiable in Hi; lia].
  simpl in Hh, Htake. rewrite Z.add_0_l in Hh.
  eexists. split.
  - rewrite (remove_all_from_tail buffer_size idx Hi Hc Ha) by (done || lia).
    rewrite Ht. change (Z.to_nat 0) with 0%nat. rewrite drop_0.
    do 2 f_equal.
    by rewrite <- (Nat2Z.id (length vs)), <- Hh, Htake.
  - unfold isEmpty. rewrite readAvailable_eq. simpl.
    by rewrite ?Ht, Hh, Z.add_0_l, Z.sub_diag.
Qed.

(** C1 as stated fails when the counter type cannot count [buffer_size]
    elements.  In [CircularBuffer<T, 256, uint8_t>] the assertion passes and
    the inserts of 1 .. 257 into the new buffer all return [true]
    ([m_head - m_tail] is never 256); the first [remove(T *data)] then
    stores 257, not 1, and the second one returns [false]. *)
Lemma fifo_256_uint8_counterexample :
  instantiable 256
  ∧ length byte_mem = Z.to_nat 256
  ∧ CircularBuffer_ctor 256 uint8_t byte_mem
    = Some (mkCircularBuffer 0 0 byte_mem)
  ∧ insert_all 256 uint8_t (mkCircularBuffer 0 0 byte_mem) (seqZ 1 257)
    = Some byte_wrapped
  ∧ remove_ptr 256 uint8_t byte_wrapped 0
    = Some (true, 257, mkCircularBuffer 1 1 (257 :: seqZ 2 255))
  ∧ remove_ptr 256 uint8_t (mkCircularBuffer 1 1 (257 :: seqZ 2 255)) 257
    = Some (false, 257, mkCircularBuffer 1 1 (257 :: seqZ 2 255))
  ∧ remove_all 256 uint8_t 257 byte_wrapped 0 = None.
Proof. by vm_compute. Qed.

Lemma fifo_order_witness :
  (instantiable demo_size
   ∧ counts_capacity demo_size demo_index
   ∧ length demo_mem = Z.to_nat demo_size
   ∧ CircularBuffer_ctor demo_size demo_index demo_mem
     = Some (mkCircularBuffer 0 0 demo_mem)
   ∧ insert_all demo_size demo_index (mkCircularBuffer 0 0 demo_mem) [5; 6; 7]
     = Some (mkCircularBuffer 3 0 ([5; 6; 7] ++ replicate 29 0)))
  ∧ ∃ s', remove_all demo_size demo_index 3
            (mkCircularBuffer 3 0 ([5; 6; 7] ++ replicate 29 0)) 0
          = Some ([5; 6; 7], s')
          ∧ isEmpty demo_index s' = true.
Proof.
  split; [by vm_compute|].
  apply (fifo_order Z demo_size demo_index demo_mem [5; 6; 7]
           (mkCircularBuffer 0 0 demo_mem)); by vm_compute.
Defined.

(** ** C2: occupancy conservation *)

(** C2, on [CircularBuffer<T, 32, uint8_t>].  In the reachable state
    [demo_overfull], [readAvailable()] is 33 and [writeAvailable()] is 255:
    their sum is 288, not [buffer_size], and [isFull()] is false although
    more than [buffer_size] elements are counted. *)
Theorem occupancy_sum_broken_uint8 :
  reachable demo_size demo_index demo_overfull
  ∧ readAvailable demo_index demo_overfull = 33
  ∧ writeAvailable demo_size demo_index demo_overfull = 255
  ∧ readAvailable demo_index demo_overfull
    + writeAvailable demo_size demo_index demo_overfull ≠ demo_size
  ∧ isFull demo_size demo_index demo_overfull = false.
Proof. split; [apply demo_overfull_reachable|]. by vm_compute. Qed.

(** ** C3: the occupancy bound as an invariant *)

(** C3, on [CircularBuffer<T, 32, uint8_t>].  32 is a power of two and
    divides 2^8, and the reachable state [demo_full] satisfies
    [0 ≤ head - tail ≤ buffer_size]; after the public call [insert(33)] the
    difference is 33 and the predicate no longer holds. *)
Theorem occupancy_inv_broken_by_insert_uint8 :
  is_pow2 demo_size
  ∧ 2 ^ bits demo_index mod demo_size = 0
  ∧ reachable demo_size demo_index demo_full
  ∧ occupancy_inv demo_size demo_index demo_full
  ∧ step demo_size demo_index (Insert 33) demo_full = Some demo_overfull
  ∧ to_index demo_index (m_head demo_overfull - m_tail demo_overfull) = 33
  ∧ ¬ occupancy_inv demo_size demo_index demo_overfull.
Proof.
  split; [exists 5; by vm_compute|]. split; [done|].
  split; [apply demo_full_reachable|].
  split; [by vm_compute|]. split; [done|]. split; [done|].
  intros [_ H]. by vm_compute in H.
Qed.

(** ** C4: checked positional access *)

(** C4, on [CircularBuffer<T, 32, uint8_t>].  In the reachable state
    [demo_wrapped] 10 elements are pending, yet [at(20)] does not return
    [NULL]: it returns the address of slot 14, which holds no pending
    element.  [at(3)] returns the address of slot 29, the element at
    [(m_tail + 3) & buffer_mask]; neither call changes the state. *)
Theorem at_beyond_pending_uint8 :
  reachable demo_size demo_index demo_wrapped
  ∧ readAvailable demo_index demo_wrapped = 10
  ∧ head_minus_tail demo_index demo_wrapped = -246
  ∧ at_ demo_size demo_index demo_wrapped 20 = (Elem 14, demo_wrapped)
  ∧ at_ demo_size demo_index demo_wrapped 3 = (Elem 29, demo_wrapped).
Proof. split; [apply demo_wrapped_reachable|]. by vm_compute. Qed.

(** ** C5: insert on a full buffer *)

(** C5, on [CircularBuffer<T, 32, uint8_t>].  The reachable state
    [demo_full] holds 32 elements ([readAvailable() = buffer_size],
    [isFull()] is true), yet [insert(33)] returns [true]: with
    [m_head = 6] and [m_tail = 230] the promoted difference is the [int]
    -224, which as [size_t] is not 32.  The call overwrites slot 6, the
    oldest pending element, and advances [m_head]. *)
Theorem insert_on_full_uint8_accepts :
  reachable demo_size demo_index demo_full
  ∧ readAvailable demo_index demo_full = demo_size
  ∧ isFull demo_size demo_index demo_full = true
  ∧ head_minus_tail demo_index demo_full = -224
  ∧ insert demo_size demo_index demo_full 33 = Some (true, demo_overfull)
  ∧ m_dataBuff demo_full !! 6%nat = Some 1
  ∧ m_dataBuff demo_overfull !! 6%nat = Some 33.
Proof. split; [apply demo_full_reachable|]. by vm_compute. Qed.

(** ** C6: remove on an empty buffer *)

(** C6.  On a state with [m_head = m_tail], [remove(T *data)] returns
    [false], leaves [*data] and the whole state as they were, and so does
    [remove()].  On any other state [remove(T *data)] copies
    [m_dataBuff[m_tail & buffer_mask]] into [*data], increments [m_tail] (in
    [index_t]) and returns [true]; [remove()] increments [m_tail] and
    returns [true]; neither touches [m_head] or the array. *)
Theorem remove_empty_or_oldest (T : Type) (buffer_size : Z) (idx : index_t)
    (s : CircularBuffer T) (data : T) :
  instantiable buffer_size → wf buffer_size idx s →
  (m_head s = m_tail s →
     remove_ptr buffer_size idx s data = Some (false, data, s)
     ∧ remove idx s = (false, s)
     ∧ isEmpty idx s = true)
  ∧ (m_head s ≠ m_tail s →
     ∃ v, load (m_dataBuff s) (Z.land (m_tail s) (buffer_mask buffer_size idx))
          = Some v
        ∧ remove_ptr buffer_size idx s data
          = Some (true, v,
                  mkCircularBuffer (m_head s) (to_index idx (m_tail s + 1))
                    (m_dataBuff s))
        ∧ remove idx s
          = (true,
             mkCircularBuffer (m_head s) (to_index idx (m_tail s + 1))
               (m_dataBuff s))
        ∧ isEmpty idx s = false).
Proof.
  intros Hi Hwf. split; intros Hht.
  - split; [by apply remove_ptr_empty|]. split.
    + unfold remove. by rewrite Hht, Z.eqb_refl.
    + by apply (empty_iff buffer_size idx s Hwf).
  - destruct (remove_ptr_nonempty buffer_size idx s data) as (v & Hv & Hr);
      [done..|congruence|].
    exists v. split; [done|]. split; [done|]. split.
    + unfold remove. by rewrite (proj2 (Z.eqb_neq _ _)) by congruence.
    + apply not_true_is_false. by rewrite (empty_iff buffer_size idx s Hwf).
Qed.

Lemma remove_empty_or_oldest_witness :
  ((instantiable 4 ∧ wf 4 uint64_t two_pending
    ∧ m_head two_pending ≠ m_tail two_pending)
   ∧ ∃ v, load (m_dataBuff two_pending)
            (Z.land (m_tail two_pending) (buffer_mask 4 uint64_t)) = Some v
        ∧ remove_ptr 4 uint64_t two_pending 9
          = Some (true, v,
                  mkCircularBuffer 2 (to_index uint64_t (0 + 1)) [1; 2; 0; 0])
        ∧ remove uint64_t two_pending
          = (true,
             mkCircularBuffer 2 (to_index uint64_t (0 + 1)) [1; 2; 0; 0])
        ∧ isEmpty uint64_t two_pending = false)
  ∧ ((wf 4 uint64_t (mkCircularBuffer 0 0 small_mem)
      ∧ m_head (mkCircularBuffer 0 0 small_mem)
        = m_tail (mkCircularBuffer 0 0 small_mem))
     ∧ remove_ptr 4 uint64_t (mkCircularBuffer 0 0 small_mem) 9
       = Some (false, 9, mkCircularBuffer 0 0 small_mem)
     ∧ remove uint64_t (mkCircularBuffer 0 0 small_mem)
       = (false, mkCircularBuffer 0 0 small_mem)
     ∧ isEmpty uint64_t (mkCircularBuffer 0 0 small_mem) = true).
Proof.
  assert (Hi : instantiable 4) by (by vm_compute).
  assert (Hwf : wf 4 uint64_t two_pending) by (by vm_compute).
  assert (Hne : m_head two_pending ≠ m_tail two_pending) by (by vm_compute).
  assert (Hwf0 : wf 4 uint64_t (mkCircularBuffer 0 0 small_mem))
    by (by vm_compute).
  split; (split; [done|]).
  - exact (proj2 (remove_empty_or_oldest Z 4 uint64_t two_pending 9 Hi Hwf)
             Hne).
  - exact (proj1 (remove_empty_or_oldest Z 4 uint64_t
                    (mkCircularBuffer 0 0 small_mem) 9 Hi Hwf0) eq_refl).
Defined.

(** ** C7: bulk remove *)

(** C7.  On every reachable state and for every [size_t] count,
    [remove(cnt)] returns [min(cnt, readAvailable())], advances [m_tail] by
    exactly that amount (in [index_t]) and leaves [m_head] and the array as
    they were, so that many elements fewer are pending; when
    [cnt > readAvailable()] it returns the old [readAvailable()] and the
    buffer is empty afterwards. *)
Theorem remove_cnt_clamps (T : Type) (buffer_size : Z) (idx : index_t)
    (s : CircularBuffer T) (cnt : Z) :
  reachable buffer_size idx s → is_size_t cnt = true →
  remove_cnt idx s cnt
  = (Z.min cnt (readAvailable idx s),
     mkCircularBuffer (m_head s)
       (to_index idx (m_tail s + Z.min cnt (readAvailable idx s)))
       (m_dataBuff s))
  ∧ readAvailable idx (remove_cnt idx s cnt).2
    = readAvailable idx s - Z.min cnt (readAvailable idx s)
  ∧ (cnt > readAvailable idx s →
     (remove_cnt idx s cnt).1 = readAvailable idx s
     ∧ isEmpty idx (remove_cnt idx s cnt).2 = true).
Proof.
  intros (_ & _ & Hwf)%reachable_wf Hcnt.
  apply andb_true_iff in Hcnt as [Hc0%Z.leb_le _].
  pose proof (readAvailable_range idx s) as Hra.
  assert (Hrest : readAvailable idx (remove_cnt idx s cnt).2
                  = readAvailable idx s - Z.min cnt (readAvailable idx s)).
  { rewrite remove_cnt_eq. simpl. rewrite (readAvailable_eq idx (mkCircularBuffer _ _ _)).
    simpl. unfold to_index. rewrite wrap_sub_r.
    replace (m_head s - (m_tail s + Z.min cnt (readAvailable idx s)))
      with (- Z.min cnt (readAvailable idx s) + (m_head s - m_tail s)) by lia.
    rewrite <- (wrap_add_r _ _ (m_head s - m_tail s)).
    change (wrap (bits idx) (m_head s - m_tail s))
      with (to_index idx (m_head s - m_tail s)).
    rewrite <- readAvailable_eq. rewrite wrap_small; lia. }
  split; [apply remove_cnt_eq|]. split; [done|].
  intros Hgt. split.
  - rewrite remove_cnt_eq. simpl. lia.
  - unfold isEmpty. rewrite Hrest. apply Z.eqb_eq. lia.
Qed.

Lemma remove_cnt_clamps_witness :
  (reachable demo_size demo_index demo_wrapped ∧ is_size_t 25 = true
   ∧ 25 > readAvailable demo_index demo_wrapped)
  ∧ (remove_cnt demo_index demo_wrapped 25).1 = readAvailable demo_index demo_wrapped
  ∧ isEmpty demo_index (remove_cnt demo_index demo_wrapped 25).2 = true.
Proof.
  assert (Hc : is_size_t 25 = true) by reflexivity.
  assert (Hgt : 25 > readAvailable demo_index demo_wrapped) by reflexivity.
  split; [split; [apply demo_wrapped_reachable|done]|].
  exact (proj2 (proj2 (remove_cnt_clamps Z demo_size demo_index demo_wrapped 25
                         demo_wrapped_reachable Hc)) Hgt).
Defined.

(** ** C8: bulk write and bulk read *)

(** C8, as amended.  Let [buff] be a source array of [count] elements and
    [s] a reachable state.
    - If [s] is empty and [count ≤ writeAvailable()], then [writeBuff]
      returns [count], a following [readBuff] of [count] elements into
      [dest] returns [count], the first [count] elements of [dest] are then
      exactly [buff], in order, the rest of [dest] is as it was, and the
      buffer is empty again.
    - If [count > writeAvailable()], then [writeBuff] returns the old
      [writeAvailable()] and has the effect of writing the first
      [writeAvailable()] source elements only: [m_head] advances by that
      number, [m_tail] stays, element [j] of the source lies in slot
      [(m_head + j) & buffer_mask] (unless a later one wrapped onto it, which
      needs more elements than the mask addresses), and every other slot is
      as it was. *)
Theorem bulk_roundtrip_from_empty (T : Type) (buffer_size : Z) (idx : index_t)
    (s : CircularBuffer T) (buff dest : list T) (count : Z) :
  reachable buffer_size idx s →
  count = Z.of_nat (length buff) →
  (isEmpty idx s = true →
   count ≤ writeAvailable buffer_size idx s →
   count ≤ Z.of_nat (length dest) →
   ∃ s1 dest' s2,
     writeBuff buffer_size idx s buff count = Some (count, s1)
     ∧ readBuff buffer_size idx s1 dest count = Some (count, dest', s2)
     ∧ take (length buff) dest' = buff
     ∧ drop (length buff) dest' = drop (length buff) dest
     ∧ isEmpty idx s2 = true)
  ∧ (count > writeAvailable buffer_size idx s →
     ∃ s1,
       writeBuff buffer_size idx s buff count
       = Some (writeAvailable buffer_size idx s, s1)
       ∧ writeBuff buffer_size idx s
           (take (Z.to_nat (writeAvailable buffer_size idx s)) buff)
           (writeAvailable buffer_size idx s)
         = Some (writeAvailable buffer_size idx s, s1)
       ∧ m_head s1 = to_index idx (m_head s + writeAvailable buffer_size idx s)
       ∧ m_tail s1 = m_tail s
       ∧ (∀ j, 0 ≤ j < writeAvailable buffer_size idx s →
            writeAvailable buffer_size idx s - j
            ≤ buffer_mask buffer_size idx + 1 →
            m_dataBuff s1
              !! Z.to_nat (Z.land (m_head s + j) (buffer_mask buffer_size idx))
            = buff !! Z.to_nat j)
       ∧ (∀ p : nat,
            (∀ j, 0 ≤ j < writeAvailable buffer_size idx s →
               p ≠ Z.to_nat (Z.land (m_head s + j)
                               (buffer_mask buffer_size idx))) →
            m_dataBuff s1 !! p = m_dataBuff s !! p)).
Proof.
  intros (Hi & Ha & Hwf)%reachable_wf Hcount.
  destruct (mask_ones buffer_size idx Hi Ha) as (m & Hm & Hmask & _ & Hcap).
  pose proof (to_index_range idx (buffer_size - readAvailable idx s)) as Hwa.
  rewrite <- writeAvailable_eq in Hwa.
  set (wa := writeAvailable buffer_size idx s) in *.
  split.
  - intros Hempty Hfit Hdest.
    pose proof Hempty as Hht. apply (empty_iff buffer_size idx s Hwf) in Hht.
    assert (Hroom : wa ≤ 2 ^ m).
    { unfold wa. rewrite writeAvailable_eq.
      unfold isEmpty in Hempty. apply Z.eqb_eq in Hempty.
      by rewrite Hempty, Z.sub_0_r. }
    (* the write *)
    destruct (write_loop_total buffer_size idx (Z.to_nat count) 0 buff s)
      as [s1 Hw]; [done..|lia|lia|].
    pose proof (write_loop_inv _ _ _ _ _ _ _ Hw Hwf) as (Hwf1 & Ht1 & Hh1).
    assert (Hwrite : writeBuff buffer_size idx s buff count = Some (count, s1)).
    { unfold writeBuff. fold (writeAvailable buffer_size idx s). fold wa.
      rewrite (proj2 (Z.ltb_ge wa count)) by done. by rewrite Hw. }
    (* the read *)
    assert (Hra1 : readAvailable idx s1 = count).
    { rewrite readAvailable_eq, Hh1, Ht1, <- Hht, Z2Nat.id by lia.
      rewrite to_index_add_sub. apply to_index_small. lia. }
    destruct (read_loop_total buffer_size idx (Z.to_nat count) 0 dest s1)
      as [[dest' s2] Hr]; [done..|lia|lia|].
    pose proof (read_loop_inv _ _ _ _ _ _ _ _ Hr Hwf1)
      as (Hwf2 & Hh2 & _ & Ht2 & Hlen).
    pose proof (read_loop_dest _ _ _ _ _ _ _ _ (Z.le_refl 0) Hr)
      as [Hread Hrest].
    exists s1, dest', s2. split; [done|]. split.
    { unfold readBuff. fold (readAvailable idx s1). rewrite Hra1, Z.ltb_irrefl.
      by rewrite Hr. }
    split; [|split].
    + apply list_eq. intros p.
      destruct (decide (p < length buff)%nat) as [Hp|Hp].
      * rewrite lookup_take_lt by done.
        specialize (Hread (Z.of_nat p)). rewrite Z.add_0_l, Nat2Z.id in Hread.
        rewrite Hread, Ht1, <- Hht by lia.
        rewrite (write_loop_stored buffer_size idx m _ _ _ _ _ _ Hi Hwf
                   (proj1 Hm) Hmask (Z.le_refl 0) Hw) by lia.
        by rewrite Z.add_0_l, Nat2Z.id.
      * rewrite lookup_take_ge by lia. symmetry. apply lookup_ge_None. lia.
    + apply list_eq. intros p. rewrite !lookup_drop. apply Hrest. lia.
    + apply (empty_iff buffer_size idx s2 Hwf2).
      by rewrite Hh2, Ht2, Hh1, Ht1, Hht.
  - intros Hover.
    destruct (write_loop_total buffer_size idx (Z.to_nat wa) 0 buff s)
      as [s1 Hw]; [done..|lia|lia|].
    pose proof (write_loop_inv _ _ _ _ _ _ _ Hw Hwf) as (Hwf1 & Ht1 & Hh1).
    rewrite Z2Nat.id in Hh1 by lia.
    exists s1. split; [|split; [|split; [done|split; [done|split]]]].
    + unfold writeBuff. fold (writeAvailable buffer_size idx s). fold wa.
      rewrite (proj2 (Z.ltb_lt wa count)) by lia. by rewrite Hw.
    + unfold writeBuff. fold (writeAvailable buffer_size idx s). fold wa.
      rewrite Z.ltb_irrefl, write_loop_take by lia. by rewrite Hw.
    + intros j Hj Hroom. rewrite Hmask, Z.ones_equiv in Hroom.
      rewrite (write_loop_stored buffer_size idx m _ _ _ _ _ _ Hi Hwf
                 (proj1 Hm) Hmask (Z.le_refl 0) Hw) by lia.
      by rewrite Z.add_0_l.
    + intros p Hp. apply (write_loop_untouched _ _ _ _ _ _ _ _ Hw).
      intros j Hj. apply Hp. lia.
Qed.

(** C8 as stated fails on a buffer that already holds elements: with 1 and
    2 pending and two free slots, [writeBuff] of [3; 4] returns 2 and the
    following [readBuff] of 2 elements returns 2, but yields 1 and 2. *)
Lemma bulk_roundtrip_nonempty_counterexample :
  reachable 4 uint64_t two_pending
  ∧ 2 ≤ writeAvailable 4 uint64_t two_pending
  ∧ writeBuff 4 uint64_t two_pending [3; 4] 2
    = Some (2, mkCircularBuffer 4 0 [1; 2; 3; 4])
  ∧ readBuff 4 uint64_t (mkCircularBuffer 4 0 [1; 2; 3; 4]) [0; 0] 2
    = Some (2, [1; 2], mkCircularBuffer 4 2 [1; 2; 3; 4])
  ∧ [1; 2] ≠ [3; 4].
Proof. split; [apply two_pending_reachable|]. by vm_compute. Qed.

Lemma bulk_roundtrip_from_empty_witness :
  (reachable 4 uint64_t (mkCircularBuffer 0 0 small_mem)
   ∧ isEmpty uint64_t (mkCircularBuffer 0 0 small_mem) = true
   ∧ 2 ≤ writeAvailable 4 uint64_t (mkCircularBuffer 0 0 small_mem)
   ∧ (∃ s1 dest' s2,
        writeBuff 4 uint64_t (mkCircularBuffer 0 0 small_mem) [3; 4] 2
        = Some (2, s1)
        ∧ readBuff 4 uint64_t s1 [0; 0; 0] 2 = Some (2, dest', s2)
        ∧ take 2 dest' = [3; 4]
        ∧ drop 2 dest' = drop 2 [0; 0; 0]
        ∧ isEmpty uint64_t s2 = true))
  ∧ (reachable 4 uint64_t two_pending
     ∧ 3 > writeAvailable 4 uint64_t two_pending
     ∧ (∃ s1, writeBuff 4 uint64_t two_pending [7; 8; 9] 3
              = Some (writeAvailable 4 uint64_t two_pending, s1))).
Proof.
  split.
  - split; [apply small_new_reachable|]. split; [done|]. split; [by vm_compute|].
    apply (proj1 (bulk_roundtrip_from_empty Z 4 uint64_t
                    (mkCircularBuffer 0 0 small_mem) [3; 4] [0; 0; 0] 2
                    small_new_reachable eq_refl)); by vm_compute.
  - split; [apply two_pending_reachable|]. split; [by vm_compute|].
    destruct (proj2 (bulk_roundtrip_from_empty Z 4 uint64_t two_pending
                       [7; 8; 9] [] 3 two_pending_reachable eq_refl))
      as (s1 & Hw & _); [by vm_compute|].
    by exists s1.
Defined.

(** ** C9: the guard of the constructor *)

(** C9, on [CircularBuffer<T, 384, uint8_t>].  384 is not a power of two,
    yet the assertion of the default constructor passes and the buffer is
    constructed: [buffer_mask] is an [index_t], so [384 - 1] is truncated
    to 127, and [384 & 127 == 0].  The buffer produced masks with 127: the
    inserts of 1 .. 129 all return [true], the last one writes slot
    [128 & 127 = 0], where the first element is still pending, and the
    first [remove(T *data)] yields 129. *)
Theorem ctor_guard_384_uint8_passes :
  ¬ is_pow2 384
  ∧ buffer_mask 384 uint8_t = 127
  ∧ Z.land 384 (buffer_mask 384 uint8_t) = 0
  ∧ ctor_assert 384 uint8_t = true
  ∧ CircularBuffer_ctor 384 uint8_t wide_mem
    = Some (mkCircularBuffer 0 0 wide_mem)
  ∧ ∃ s, insert_all 384 uint8_t (mkCircularBuffer 0 0 wide_mem) (seqZ 1 129)
         = Some s
         ∧ m_head s = 129 ∧ m_tail s = 0
         ∧ readAvailable uint8_t s = 129
         ∧ m_dataBuff s !! 0%nat = Some 129
         ∧ remove_ptr 384 uint8_t s 0
           = Some (true, 129, mkCircularBuffer 129 1 (m_dataBuff s)).
Proof.
  split; [apply not_pow2_384|]. do 4 (split; [by vm_compute|]).
  eexists. split; [by vm_compute|]. by vm_compute.
Qed.

(** ** C10: producer side and consumer side *)

(** C10.  On every reachable state: [insert] (both overloads) and
    [writeBuff] return and leave [m_tail] as it was; [readBuff] and every
    overload of [remove] return and leave [m_head] as it was; [peek] and
    [at] return with the state (both counters and every slot of the array)
    as it was. *)
Theorem producer_consumer_frame (T : Type) (buffer_size : Z) (idx : index_t)
    (s : CircularBuffer T) :
  reachable buffer_size idx s →
  (∀ data, ∃ b s', insert buffer_size idx s data = Some (b, s')
                   ∧ m_tail s' = m_tail s)
  ∧ (∀ data, ∃ b s', insert_ptr buffer_size idx s data = Some (b, s')
                     ∧ m_tail s' = m_tail s)
  ∧ (∀ buff count,
       Z.min count (writeAvailable buffer_size idx s) ≤ Z.of_nat (length buff) →
       ∃ r s', writeBuff buffer_size idx s buff count = Some (r, s')
               ∧ m_tail s' = m_tail s)
  ∧ (∀ buff count,
       Z.min count (readAvailable idx s) ≤ Z.of_nat (length buff) →
       ∃ r buff' s', readBuff buffer_size idx s buff count = Some (r, buff', s')
                     ∧ m_head s' = m_head s)
  ∧ m_head (remove idx s).2 = m_head s
  ∧ (∀ cnt, m_head (remove_cnt idx s cnt).2 = m_head s)
  ∧ (∀ data, ∃ b v s', remove_ptr buffer_size idx s data = Some (b, v, s')
                       ∧ m_head s' = m_head s)
  ∧ (∀ data, ∃ b v s', remove_ref buffer_size idx s data = Some (b, v, s')
                       ∧ m_head s' = m_head s)
  ∧ (peek buffer_size idx s).2 = s
  ∧ (∀ index, (at_ buffer_size idx s index).2 = s).
Proof.
  intros (Hi & _ & Hwf)%reachable_wf.
  split; [intros data; by apply insert_total|].
  split; [intros data; rewrite insert_ptr_insert; by apply insert_total|].
  split.
  { intros buff count Hlen.
    destruct (writeBuff_total buffer_size idx s buff count) as [[r s'] Hw];
      [done..|].
    exists r, s'. split; [done|]. by apply writeBuff_inv in Hw as (_ & _ & ? & _). }
  split.
  { intros buff count Hlen.
    destruct (readBuff_total buffer_size idx s buff count) as [[[r b] s'] Hr];
      [done..|].
    exists r, b, s'. split; [done|].
    by apply readBuff_inv in Hr as (_ & _ & ? & _). }
  split; [apply remove_inv|].
  split; [intros cnt; by rewrite remove_cnt_eq|].
  split.
  { intros data.
    destruct (remove_ptr_total buffer_size idx s data) as (b & v & s' & ? & ? & _);
      [done..|]. by exists b, v, s'. }
  split.
  { intros data.
    destruct (remove_ptr_total buffer_size idx s data) as (b & v & s' & ? & ? & _);
      [done..|]. by exists b, v, s'. }
  split.
  - unfold peek. by case_match.
  - intros index. unfold at_. by case_match.
Qed.

Lemma producer_consumer_frame_witness :
  reachable demo_size demo_index demo_wrapped
  ∧ (∀ data, ∃ b s', insert demo_size demo_index demo_wrapped data = Some (b, s')
                     ∧ m_tail s' = m_tail demo_wrapped)
  ∧ (peek demo_size demo_index demo_wrapped).2 = demo_wrapped.
Proof.
  split; [apply demo_wrapped_reachable|].
  pose proof (producer_consumer_frame Z demo_size demo_index demo_wrapped
                demo_wrapped_reachable) as (Hins & _ & _ & _ & _ & _ & _ & _ & Hpeek & _).
  by split.
Defined.

(** * Further properties of the class and of its client *)

(** ** The pending elements as a list *)

Section Contents.

Context {T : Type}.
Variable buffer_size : Z.
Variable idx : index_t.

Local Abbreviation state := (CircularBuffer T).
Local Abbreviation mask := (buffer_mask buffer_size idx).
Local Abbreviation wfs := (@wf T buffer_size idx).
Local Abbreviation slot := (λ x : Z, Z.to_nat (Z.land x mask)).
Local Abbreviation cont := (@contents T buffer_size idx).

Hypothesis Hinst : instantiable buffer_size.

Implicit Types (s : state) (v data : T) (l buff : list T).

Lemma pending_spec n : ∀ i s,
  wfs s → 0 ≤ i →
  length (pending buffer_size idx n i s) = n
  ∧ ∀ j : nat, (j < n)%nat →
      pending buffer_size idx n i s !! j
      = m_dataBuff s !! slot (m_tail s + i + Z.of_nat j).
Proof using Hinst.
  induction n as [|n IH]; intros i s Hwf Hi; simpl; [split; [done|lia]|].
  destruct (load_is_Some (m_dataBuff s) (Z.land (m_tail s + i) mask))
    as [v Hv].
  { apply slot_in_array; [done..|]. destruct Hwf as (_ & _ & ?). lia. }
  rewrite Hv. apply load_inv in Hv as [_ Hv].
  destruct (IH (i + 1) s Hwf ltac:(lia)) as [Hlen Hlook].
  split; [simpl; by rewrite Hlen|].
  intros [|j] Hj; simpl.
  - by rewrite Z.add_0_r.
  - rewrite Hlook by lia. do 3 f_equal. lia.
Qed.

Lemma contents_length s :
  wfs s → length (cont s) = Z.to_nat (readAvailable idx s).
Proof using Hinst. intros Hwf. by apply pending_spec. Qed.

Lemma contents_lookup s (j : nat) :
  wfs s → (j < Z.to_nat (readAvailable idx s))%nat →
  cont s !! j = m_dataBuff s !! slot (m_tail s + Z.of_nat j).
Proof using Hinst.
  intros Hwf Hj.
  destruct (pending_spec (Z.to_nat (readAvailable idx s)) 0 s Hwf
              (Z.le_refl 0)) as [_ Hlook].
  unfold contents. rewrite Hlook by done. by rewrite Z.add_0_r.
Qed.

(** A list is the contents when it has the right length and agrees slot by
    slot. *)
Lemma contents_eq s l :
  wfs s → length l = Z.to_nat (readAvailable idx s) →
  (∀ j : nat, (j < length l)%nat →
     l !! j = m_dataBuff s !! slot (m_tail s + Z.of_nat j)) →
  cont s = l.
Proof using Hinst.
  intros Hwf Hlen Hl. apply list_eq. intros j.
  destruct (decide (j < length l)%nat) as [Hj|Hj].
  - rewrite contents_lookup by (done || lia). symmetry. by apply Hl.
  - rewrite (lookup_ge_None_2 l) by lia.
    apply lookup_ge_None_2. rewrite contents_length by done. lia.
Qed.

(** Advancing [m_tail] by [n ≤ readAvailable()] drops the [n] oldest
    elements. *)
Lemma contents_tail_add s n :
  wfs s → 0 ≤ n ≤ readAvailable idx s →
  cont (mkCircularBuffer (m_head s) (to_index idx (m_tail s + n)) (m_dataBuff s))
  = drop (Z.to_nat n) (cont s).
Proof using Hinst.
  intros Hwf Hn. pose proof (readAvailable_range idx s) as Hra.
  assert (Hra' : readAvailable idx
                   (mkCircularBuffer (m_head s) (to_index idx (m_tail s + n))
                      (m_dataBuff s))
                 = readAvailable idx s - n).
  { rewrite readAvailable_tail_add. apply to_index_small. lia. }
  apply contents_eq.
  - by apply wf_set_tail.
  - rewrite length_drop, contents_length, Hra' by done. lia.
  - intros j Hj. rewrite length_drop, contents_length in Hj by done.
    rewrite lookup_drop, contents_lookup by (done || lia). simpl.
    rewrite (slot_to_index_add buffer_size idx).
    replace (m_tail s + Z.of_nat (Z.to_nat n + j))
      with (m_tail s + n + Z.of_nat j) by lia.
    done.
Qed.

End Contents.

(** ** The consumer side, for every capacity and counter type *)

Section Consumer.

Context {T : Type}.
Variable buffer_size : Z.
Variable idx : index_t.

Local Abbreviation state := (CircularBuffer T).
Local Abbreviation mask := (buffer_mask buffer_size idx).
Local Abbreviation wfs := (@wf T buffer_size idx).
Local Abbreviation cont := (@contents T buffer_size idx).

Hypothesis Hinst : instantiable buffer_size.

Implicit Types (s : state) (v data : T) (l buff : list T).

Lemma contents_nil_iff s : wfs s → cont s = [] ↔ m_head s = m_tail s.
Proof using Hinst.
  intros Hwf. rewrite <- (empty_iff buffer_size idx s Hwf).
  unfold isEmpty. rewrite Z.eqb_eq.
  pose proof (contents_length buffer_size idx Hinst s Hwf) as Hlen.
  pose proof (readAvailable_range idx s). split.
  - intros Hnil. rewrite Hnil in Hlen. simpl in Hlen. lia.
  - intros H0. apply nil_length_inv. rewrite Hlen, H0. done.
Qed.

Lemma remove_ptr_contents s data v l :
  wfs s → cont s = v :: l →
  remove_ptr buffer_size idx s data
  = Some (true, v,
          mkCircularBuffer (m_head s) (to_index idx (m_tail s + 1))
            (m_dataBuff s))
  ∧ cont (mkCircularBuffer (m_head s) (to_index idx (m_tail s + 1))
            (m_dataBuff s)) = l.
Proof using Hinst.
  intros Hwf Hc.
  pose proof (contents_length buffer_size idx Hinst s Hwf) as Hlen.
  rewrite Hc in Hlen. simpl in Hlen.
  assert (Hne : m_tail s ≠ m_head s).
  { intros E. symmetry in E. apply (contents_nil_iff s Hwf) in E. congruence. }
  destruct (remove_ptr_nonempty buffer_size idx s data Hinst Hwf Hne)
    as (v' & Hv' & ->).
  pose proof (contents_lookup buffer_size idx Hinst s 0 Hwf ltac:(lia)) as H0.
  rewrite Hc, Z.add_0_r in H0. simpl in H0.
  apply load_inv in Hv' as [_ Hv']. rewrite Hv' in H0. injection H0 as ->.
  split; [done|].
  rewrite contents_tail_add by (done || lia). by rewrite Hc.
Qed.

Lemma read_loop_is_Some n : ∀ i buff s,
  wfs s → 0 ≤ i → i + Z.of_nat n ≤ Z.of_nat (length buff) →
  ∃ buff' s', read_loop buffer_size idx n i buff s = Some (buff', s').
Proof using Hinst.
  intros i buff s Hwf Hi Hlen.
  destruct (read_loop_total buffer_size idx n i buff s) as [[b s'] ->];
    eauto.
Qed.

End Consumer.

Lemma to_size_head_minus_tail_0 {T} buffer_size idx (s : CircularBuffer T) :
  wf buffer_size idx s →
  to_size (head_minus_tail idx s) = 0 ↔ m_head s = m_tail s.
Proof.
  intros Hwf. pose proof Hwf as (_ & Hh & Ht).
  destruct (Z_le_gt_dec (m_tail s) (m_head s)) as [Hle|Hgt].
  - rewrite (to_size_head_minus_tail_ge buffer_size) by done. lia.
  - split; [|lia]. intros H0. exfalso.
    destruct (promoted idx) eqn:Hp.
    + destruct (to_size_head_minus_tail_wrapped buffer_size idx s Hp Hwf)
        as [_ Hbig]; lia.
    + rewrite to_size_head_minus_tail_unpromoted in H0 by done.
      assert (isEmpty idx s = true) as He by (unfold isEmpty; by rewrite H0).
      apply (empty_iff buffer_size idx s Hwf) in He. lia.
Qed.

(** X1.  [clear()] empties the buffer whatever the counters were (also the
    indeterminate ones the constructor without initialisation leaves): it
    keeps [m_head] and the array, and afterwards [readAvailable()] is 0,
    no element is pending, [remove(T *data)] returns [false] without
    touching [*data], and [peek()] and [at(index)] return [NULL]; this holds
    for every capacity and every counter type. *)
Theorem clear_empties (T : Type) (buffer_size : Z) (idx : index_t)
    (dummy : Z) (found : CircularBuffer T) (data : T) (index : Z) :
  0 ≤ index →
  let s := clear (CircularBuffer_noinit dummy found) in
  m_head s = m_head found
  ∧ m_dataBuff s = m_dataBuff found
  ∧ readAvailable idx s = 0
  ∧ isEmpty idx s = true
  ∧ contents buffer_size idx s = []
  ∧ remove_ptr buffer_size idx s data = Some (false, data, s)
  ∧ remove idx s = (false, s)
  ∧ peek buffer_size idx s = (NULL, s)
  ∧ at_ buffer_size idx s index = (NULL, s).
Proof.
  intros Hi s.
  assert (Hhmt : head_minus_tail idx s = 0).
  { unfold head_minus_tail, s, clear. simpl. rewrite Z.sub_diag.
    destruct (promoted idx); [done|]. apply to_index_small.
    pose proof (to_index_range idx 0). lia. }
  assert (Hra : readAvailable idx s = 0).
  { unfold readAvailable. rewrite Hhmt. apply to_index_small.
    pose proof (to_index_range idx 0). lia. }
  split; [done|]. split; [done|]. split; [done|].
  split; [unfold isEmpty; by rewrite Hra|].
  split; [unfold contents; by rewrite Hra|].
  split; [by apply remove_ptr_empty|].
  split; [unfold remove; simpl; by rewrite Z.eqb_refl|].
  split; [unfold peek; simpl; by rewrite Z.eqb_refl|].
  unfold at_. rewrite Hhmt.
  by rewrite (proj2 (Z.leb_le (to_size 0) index)) by (by vm_compute || lia).
Qed.

Lemma clear_empties_witness :
  0 ≤ 5
  ∧ contents demo_size demo_index (clear (CircularBuffer_noinit 0 demo_wrapped))
    = []
  ∧ at_ demo_size demo_index (clear (CircularBuffer_noinit 0 demo_wrapped)) 5
    = (NULL, clear (CircularBuffer_noinit 0 demo_wrapped)).
Proof.
  assert (H5 : 0 ≤ 5) by lia. split; [done|].
  pose proof (clear_empties Z demo_size demo_index 0 demo_wrapped 0 5 H5)
    as (_ & _ & _ & _ & Hc & _ & _ & _ & Hat).
  by split.
Defined.

(** X2.  On every well-formed state, for every capacity and counter type,
    [peek()] returns what [at(0)] returns: [NULL] on an empty buffer, the
    address of the slot [m_tail & buffer_mask] otherwise. *)
Theorem peek_is_at_0 (T : Type) (buffer_size : Z) (idx : index_t)
    (s : CircularBuffer T) :
  wf buffer_size idx s →
  peek buffer_size idx s = at_ buffer_size idx s 0.
Proof.
  intros Hwf. pose proof Hwf as (_ & Hh & Ht). unfold peek, at_.
  pose proof (to_size_head_minus_tail_0 buffer_size idx s Hwf) as H0.
  pose proof (to_size_range (head_minus_tail idx s)) as Hr.
  pose proof (pow2_bits_le_size idx).
  rewrite Z.add_0_r, (to_size_small (m_tail s)) by lia.
  destruct (Z.eqb_spec (m_tail s) (m_head s)) as [E|E].
  - rewrite (proj2 (Z.leb_le _ 0)); [done|]. symmetry in E. apply H0 in E. lia.
  - rewrite (proj2 (Z.leb_gt _ 0)); [done|].
    destruct (Z.eq_dec (to_size (head_minus_tail idx s)) 0) as [E0|E0]; [|lia].
    apply H0 in E0. congruence.
Qed.

Lemma peek_is_at_0_witness :
  wf demo_size demo_index demo_wrapped
  ∧ peek demo_size demo_index demo_wrapped
    = at_ demo_size demo_index demo_wrapped 0.
Proof.
  assert (Hwf : wf demo_size demo_index demo_wrapped) by (by vm_compute).
  split; [done|]. exact (peek_is_at_0 Z demo_size demo_index demo_wrapped Hwf).
Defined.

(** X3.  For an index below [readAvailable()], [at(index)] and
    [operator[](index)] designate the same slot, that slot lies in the
    array, and it holds the [index]-th oldest pending element; neither call
    changes the buffer.  This holds for every counter type. *)
Theorem at_designates_pending (T : Type) (buffer_size : Z) (idx : index_t)
    (s : CircularBuffer T) (index : Z) :
  instantiable buffer_size → wf buffer_size idx s →
  0 ≤ index < readAvailable idx s →
  ∃ p v,
    at_ buffer_size idx s index = (Elem p, s)
    ∧ subscript buffer_size idx s index = (Elem p, s)
    ∧ load (m_dataBuff s) p = Some v
    ∧ contents buffer_size idx s !! Z.to_nat index = Some v.
Proof.
  intros Hi Hwf Hidx. pose proof Hwf as (_ & _ & Ht).
  pose proof (buffer_mask_range buffer_size idx) as Hm.
  pose proof (pow2_bits_le_size idx) as Hle.
  destruct (load_is_Some (m_dataBuff s)
              (Z.land (m_tail s + index) (buffer_mask buffer_size idx)))
    as [v Hv]; [apply slot_in_array; (done || lia)|].
  exists (Z.land (m_tail s + index) (buffer_mask buffer_size idx)), v.
  split; [by apply at_pending|]. split.
  - unfold subscript. do 2 f_equal. apply land_wrap_l; [done|lia].
  - split; [done|]. rewrite contents_lookup by (done || lia).
    rewrite Z2Nat.id by lia. by apply load_inv in Hv as [_ ?].
Qed.

Lemma at_designates_pending_witness :
  (instantiable demo_size ∧ wf demo_size demo_index demo_wrapped
   ∧ 0 ≤ 3 < readAvailable demo_index demo_wrapped)
  ∧ ∃ p v,
      at_ demo_size demo_index demo_wrapped 3 = (Elem p, demo_wrapped)
      ∧ subscript demo_size demo_index demo_wrapped 3 = (Elem p, demo_wrapped)
      ∧ load (m_dataBuff demo_wrapped) p = Some v
      ∧ contents demo_size demo_index demo_wrapped !! Z.to_nat 3 = Some v.
Proof.
  assert (Hi : instantiable demo_size) by (by vm_compute).
  assert (Hwf : wf demo_size demo_index demo_wrapped) by (by vm_compute).
  assert (H3 : 0 ≤ 3 < readAvailable demo_index demo_wrapped)
    by (by vm_compute).
  split; [done|].
  exact (at_designates_pending Z demo_size demo_index demo_wrapped 3 Hi Hwf H3).
Defined.

(** X4.  No operation leaves the array [m_dataBuff], for every positive
    capacity (power of two or not) and every counter type, on every state
    whose counters hold [index_t] values: [insert] and [remove(T *data)]
    return, [writeBuff] and [readBuff] return whenever the caller's array
    holds the elements they transfer, and every pointer that [peek], [at]
    or [operator[]] returns addresses one of the [buffer_size] slots. *)
Theorem no_access_outside_array (T : Type) (buffer_size : Z) (idx : index_t)
    (s : CircularBuffer T) :
  instantiable buffer_size → wf buffer_size idx s →
  (∀ data, is_Some (insert buffer_size idx s data))
  ∧ (∀ data, is_Some (insert_ptr buffer_size idx s data))
  ∧ (∀ data, is_Some (remove_ptr buffer_size idx s data))
  ∧ (∀ data, is_Some (remove_ref buffer_size idx s data))
  ∧ (∀ buff count,
       Z.min count (writeAvailable buffer_size idx s) ≤ Z.of_nat (length buff) →
       is_Some (writeBuff buffer_size idx s buff count))
  ∧ (∀ buff count,
       Z.min count (readAvailable idx s) ≤ Z.of_nat (length buff) →
       is_Some (readBuff buffer_size idx s buff count))
  ∧ (∀ p, (peek buffer_size idx s).1 = Elem p → 0 ≤ p < buffer_size)
  ∧ (∀ index p,
       (at_ buffer_size idx s index).1 = Elem p → 0 ≤ p < buffer_size)
  ∧ (∀ index p,
       (subscript buffer_size idx s index).1 = Elem p → 0 ≤ p < buffer_size).
Proof.
  intros Hi Hwf. pose proof Hwf as (_ & _ & Ht).
  assert (Hins : ∀ data, is_Some (insert buffer_size idx s data)).
  { intros data.
    destruct (insert_total buffer_size idx s data Hi Hwf) as (b & s' & -> & _).
    done. }
  assert (Hrem : ∀ data, is_Some (remove_ptr buffer_size idx s data)).
  { intros data.
    destruct (remove_ptr_total buffer_size idx s data Hi Hwf)
      as (b & v & s' & -> & _). done. }
  split; [done|]. split; [done|]. split; [done|]. split; [done|].
  split; [intros; by apply writeBuff_total|].
  split; [intros; by apply readBuff_total|].
  split; [|split].
  - intros p. unfold peek. case_match; simpl; [done|].
    intros [= <-]. apply slot_range; [done|lia].
  - intros index p. unfold at_. case_match; simpl; [done|].
    intros [= <-]. apply slot_range; [done|apply to_size_range].
  - intros index p. unfold subscript. simpl.
    intros [= <-]. apply slot_range; [done|apply to_size_range].
Qed.

Lemma no_access_outside_array_witness :
  (instantiable 6 ∧ wf 6 uint8_t (mkCircularBuffer 9 200 (replicate 6 0)))
  ∧ is_Some (insert 6 uint8_t (mkCircularBuffer 9 200 (replicate 6 0)) 1)
  ∧ (∀ index p,
       (subscript 6 uint8_t (mkCircularBuffer 9 200 (replicate 6 0)) index).1
       = Elem p → 0 ≤ p < 6).
Proof.
  assert (Hi : instantiable 6) by (by vm_compute).
  assert (Hwf : wf 6 uint8_t (mkCircularBuffer 9 200 (replicate 6 0)))
    by (by vm_compute).
  split; [done|].
  pose proof (no_access_outside_array Z 6 uint8_t _ Hi Hwf)
    as (Hins & _ & _ & _ & _ & _ & _ & _ & Hsub).
  split; [apply Hins|apply Hsub].
Defined.

(** X5.  [remove(T *data)] takes the pending elements oldest first, for
    every capacity and counter type: when nothing is pending it returns
    [false] and changes neither [*data] nor the buffer; when [v] is the
    oldest of the pending elements it returns [true], stores [v], and the
    rest stays pending in the same order.  [remove()] leaves the buffer in
    the same state without storing anything. *)
Theorem remove_yields_oldest (T : Type) (buffer_size : Z) (idx : index_t)
    (s : CircularBuffer T) (data : T) :
  instantiable buffer_size → wf buffer_size idx s →
  (contents buffer_size idx s = [] →
     remove_ptr buffer_size idx s data = Some (false, data, s)
     ∧ remove idx s = (false, s))
  ∧ (∀ v l, contents buffer_size idx s = v :: l →
       ∃ s', remove_ptr buffer_size idx s data = Some (true, v, s')
             ∧ remove idx s = (true, s')
             ∧ contents buffer_size idx s' = l).
Proof.
  intros Hi Hwf. split.
  - intros Hnil%(contents_nil_iff buffer_size idx Hi s Hwf).
    split; [by apply remove_ptr_empty|].
    unfold remove. by rewrite Hnil, Z.eqb_refl.
  - intros v l Hc.
    destruct (remove_ptr_contents buffer_size idx Hi s data v l Hwf Hc)
      as [Hr Hc'].
    eexists. split; [done|]. split; [|done].
    unfold remove. rewrite (proj2 (Z.eqb_neq _ _)); [done|].
    intros E. symmetry in E.
    apply (contents_nil_iff buffer_size idx Hi s Hwf) in E. congruence.
Qed.

Lemma remove_yields_oldest_witness :
  (instantiable demo_size ∧ wf demo_size demo_index demo_wrapped
   ∧ contents demo_size demo_index demo_wrapped = 1 :: seqZ 2 9)
  ∧ ∃ s', remove_ptr demo_size demo_index demo_wrapped 0 = Some (true, 1, s')
          ∧ remove demo_index demo_wrapped = (true, s')
          ∧ contents demo_size demo_index s' = seqZ 2 9.
Proof.
  assert (Hi : instantiable demo_size) by (by vm_compute).
  assert (Hwf : wf demo_size demo_index demo_wrapped) by (by vm_compute).
  assert (Hc : contents demo_size demo_index demo_wrapped = 1 :: seqZ 2 9)
    by (by vm_compute).
  split; [done|].
  exact (proj2 (remove_yields_oldest Z demo_size demo_index demo_wrapped 0
                  Hi Hwf) 1 (seqZ 2 9) Hc).
Defined.

(** X6.  [remove(cnt)] discards the [cnt] oldest pending elements, or all
    of them when fewer are pending, and returns how many it discarded; the
    others stay pending in the same order.  This holds for every capacity
    and counter type. *)
Theorem remove_cnt_drops_oldest (T : Type) (buffer_size : Z) (idx : index_t)
    (s : CircularBuffer T) (cnt : Z) :
  instantiable buffer_size → wf buffer_size idx s → 0 ≤ cnt →
  (remove_cnt idx s cnt).1
  = Z.min cnt (Z.of_nat (length (contents buffer_size idx s)))
  ∧ contents buffer_size idx (remove_cnt idx s cnt).2
    = drop (Z.to_nat cnt) (contents buffer_size idx s).
Proof.
  intros Hi Hwf Hcnt. pose proof (readAvailable_range idx s) as Hra.
  pose proof (contents_length buffer_size idx Hi s Hwf) as Hlen.
  rewrite remove_cnt_eq. simpl. split; [f_equal; lia|].
  rewrite contents_tail_add by (done || lia).
  destruct (Z_le_gt_dec cnt (readAvailable idx s)).
  - by rewrite Z.min_l by lia.
  - rewrite Z.min_r by lia. rewrite !drop_ge; [done|lia..].
Qed.

Lemma remove_cnt_drops_oldest_witness :
  (instantiable demo_size ∧ wf demo_size demo_index demo_wrapped ∧ 0 ≤ 4)
  ∧ (remove_cnt demo_index demo_wrapped 4).1
    = Z.min 4 (Z.of_nat (length (contents demo_size demo_index demo_wrapped)))
  ∧ contents demo_size demo_index (remove_cnt demo_index demo_wrapped 4).2
    = drop (Z.to_nat 4) (contents demo_size demo_index demo_wrapped).
Proof.
  assert (Hi : instantiable demo_size) by (by vm_compute).
  assert (Hwf : wf demo_size demo_index demo_wrapped) by (by vm_compute).
  assert (H4 : 0 ≤ 4) by lia.
  split; [done|].
  exact (remove_cnt_drops_oldest Z demo_size demo_index demo_wrapped 4
           Hi Hwf H4).
Defined.

(** X7.  [readBuff(buff, count)] moves the [n = min(count, readAvailable())]
    oldest pending elements, in order, into [buff[0 .. n)], leaves the rest
    of [buff] as it was, returns [n], and the other elements stay pending in
    the same order; [m_head] and the array are not changed.  This holds for
    every capacity and counter type, when [buff] has room for [n]
    elements. *)
Theorem readBuff_yields_oldest (T : Type) (buffer_size : Z) (idx : index_t)
    (s : CircularBuffer T) (buff : list T) (count : Z) :
  instantiable buffer_size → wf buffer_size idx s → 0 ≤ count →
  Z.min count (readAvailable idx s) ≤ Z.of_nat (length buff) →
  ∃ s',
    readBuff buffer_size idx s buff count
    = Some (Z.min count (readAvailable idx s),
            take (Z.to_nat count) (contents buffer_size idx s)
            ++ drop (Z.to_nat (Z.min count (readAvailable idx s))) buff,
            s')
    ∧ contents buffer_size idx s'
      = drop (Z.to_nat count) (contents buffer_size idx s)
    ∧ m_head s' = m_head s ∧ m_dataBuff s' = m_dataBuff s.
Proof.
  intros Hi Hwf Hcount Hroom. pose proof (readAvailable_range idx s) as Hra.
  pose proof (contents_length buffer_size idx Hi s Hwf) as Hlen.
  set (n := Z.min count (readAvailable idx s)) in *.
  destruct (readBuff_total buffer_size idx s buff count Hi Hwf Hroom)
    as [[[r buff'] s'] Hrb].
  pose proof (readBuff_inv _ _ _ _ _ _ _ _ Hwf Hrb)
    as (Hr & Hwf' & Hh & Hd & Ht & Hl).
  fold n in Hr. subst r. rewrite Z2Nat.id in Ht by lia.
  pose proof Hrb as Hrb0.
  unfold readBuff in Hrb. fold (readAvailable idx s) in Hrb.
  replace (if readAvailable idx s <? count then readAvailable idx s else count)
    with n in Hrb by (unfold n; destruct (Z.ltb_spec (readAvailable idx s) count); lia).
  destruct (read_loop _ _ _ _ _ _) as [[b s1]|] eqn:Hloop; [|done].
  simpl in Hrb. injection Hrb as -> ->.
  pose proof (read_loop_dest _ _ _ _ _ _ _ _ (Z.le_refl 0) Hloop)
    as [Hread Hrest].
  assert (Htake : take (Z.to_nat count) (contents buffer_size idx s)
                  = take (Z.to_nat n) (contents buffer_size idx s)).
  { destruct (Z_le_gt_dec count (readAvailable idx s)).
    - unfold n. by rewrite Z.min_l by lia.
    - unfold n. rewrite Z.min_r by lia. rewrite !take_ge; [done|lia..]. }
  assert (Hdrop : drop (Z.to_nat count) (contents buffer_size idx s)
                  = drop (Z.to_nat n) (contents buffer_size idx s)).
  { destruct (Z_le_gt_dec count (readAvailable idx s)).
    - unfold n. by rewrite Z.min_l by lia.
    - unfold n. rewrite Z.min_r by lia. rewrite !drop_ge; [done|lia..]. }
  exists s'. split; [|split; [|done]].
  - rewrite Hrb0. do 3 f_equal. rewrite Htake. apply list_eq. intros j.
    destruct (decide (j < Z.to_nat n)%nat) as [Hj|Hj].
    + rewrite lookup_app_l by (rewrite length_take; lia).
      rewrite lookup_take_lt, contents_lookup by (done || lia).
      specialize (Hread (Z.of_nat j)).
      rewrite Z.add_0_l, Nat2Z.id in Hread. apply Hread. lia.
    + rewrite lookup_app_r by (rewrite length_take; lia).
      rewrite length_take, lookup_drop, Hrest by lia.
      f_equal. lia.
  - rewrite Hdrop. destruct s' as [h' t' d']. simpl in *. subst h' t' d'.
    apply contents_tail_add; [done..|lia].
Qed.

Lemma readBuff_yields_oldest_witness :
  (instantiable demo_size ∧ wf demo_size demo_index demo_wrapped ∧ 0 ≤ 3
   ∧ Z.min 3 (readAvailable demo_index demo_wrapped)
     ≤ Z.of_nat (length [0; 0; 0; 0]))
  ∧ ∃ s',
      readBuff demo_size demo_index demo_wrapped [0; 0; 0; 0] 3
      = Some (Z.min 3 (readAvailable demo_index demo_wrapped),
              take (Z.to_nat 3) (contents demo_size demo_index demo_wrapped)
              ++ drop (Z.to_nat (Z.min 3 (readAvailable demo_index demo_wrapped)))
                   [0; 0; 0; 0],
              s')
      ∧ contents demo_size demo_index s'
        = drop (Z.to_nat 3) (contents demo_size demo_index demo_wrapped)
      ∧ m_head s' = m_head demo_wrapped
      ∧ m_dataBuff s' = m_dataBuff demo_wrapped.
Proof.
  assert (Hi : instantiable demo_size) by (by vm_compute).
  assert (Hwf : wf demo_size demo_index demo_wrapped) by (by vm_compute).
  assert (H3 : 0 ≤ 3) by lia.
  assert (Hroom : Z.min 3 (readAvailable demo_index demo_wrapped)
                  ≤ Z.of_nat (length [0; 0; 0; 0])) by (by vm_compute).
  split; [done|].
  exact (readBuff_yields_oldest Z demo_size demo_index demo_wrapped
           [0; 0; 0; 0] 3 Hi Hwf H3 Hroom).
Defined.

(** ** The loops of examples/main.cpp *)

Lemma clear_of_empty {T} buffer_size idx (s : CircularBuffer T) :
  wf buffer_size idx s → readAvailable idx s = 0 → clear s = s.
Proof.
  intros Hwf H0.
  assert (He : isEmpty idx s = true) by (unfold isEmpty; by rewrite H0).
  apply (empty_iff buffer_size idx s Hwf) in He.
  destruct s as [h t d]. unfold clear. simpl in *. by subst.
Qed.

(** X8.  The draining loop of [main], [while (readAvailable())
    remove(&dpr)], terminates after [readAvailable()] rounds on every
    well-formed buffer: every [remove] returns [true], the values stored
    into [dpr] are the pending elements, oldest first, and the buffer is
    left as [clear()] would leave it.  This holds for every capacity and
    counter type. *)
Theorem main_drain_yields_all (T : Type) (buffer_size : Z) (idx : index_t)
    (fuel : nat) (s : CircularBuffer T) (dpr : T) :
  instantiable buffer_size → wf buffer_size idx s →
  readAvailable idx s ≤ Z.of_nat fuel →
  main_drain buffer_size idx fuel s dpr
  = Some ((λ v, (true, v)) <$> contents buffer_size idx s, clear s).
Proof.
  intros Hi. revert s dpr.
  induction fuel as [|fuel IH]; intros s dpr Hwf Hfuel;
    pose proof (readAvailable_range idx s) as Hra;
    pose proof (contents_length buffer_size idx Hi s Hwf) as Hlen.
  - assert (H0 : readAvailable idx s = 0) by lia.
    simpl. rewrite H0. simpl.
    rewrite (clear_of_empty buffer_size idx s Hwf H0).
    rewrite H0 in Hlen. by apply nil_length_inv in Hlen as ->.
  - simpl. destruct (Z.eqb_spec (readAvailable idx s) 0) as [H0|Hne].
    + rewrite (clear_of_empty buffer_size idx s Hwf H0).
      rewrite H0 in Hlen. by apply nil_length_inv in Hlen as ->.
    + destruct (contents buffer_size idx s) as [|v l] eqn:Hc;
        [simpl in Hlen; lia|].
      destruct (remove_ptr_contents buffer_size idx Hi s dpr v l Hwf Hc)
        as [-> Hc'].
      simpl. rewrite IH.
      * simpl. by rewrite Hc'.
      * by apply wf_set_tail.
      * rewrite <- (Z2Nat.id (readAvailable idx _))
          by apply readAvailable_range.
        rewrite <- (contents_length buffer_size idx Hi)
          by (by apply wf_set_tail).
        rewrite Hc'. simpl in Hlen. lia.
Qed.

Lemma main_drain_yields_all_witness :
  (instantiable demo_size ∧ wf demo_size demo_index demo_wrapped
   ∧ readAvailable demo_index demo_wrapped ≤ Z.of_nat 10)
  ∧ main_drain demo_size demo_index 10 demo_wrapped 0
    = Some ((λ v, (true, v)) <$> contents demo_size demo_index demo_wrapped,
            clear demo_wrapped).
Proof.
  assert (Hi : instantiable demo_size) by (by vm_compute).
  assert (Hwf : wf demo_size demo_index demo_wrapped) by (by vm_compute).
  assert (Hf : readAvailable demo_index demo_wrapped ≤ Z.of_nat 10)
    by (by vm_compute).
  split; [done|].
  exact (main_drain_yields_all Z demo_size demo_index 10 demo_wrapped 0
           Hi Hwf Hf).
Defined.

(** ** The producer side, when the counter type can count the capacity *)

Section Producer.

Context {T : Type}.
Variable buffer_size : Z.
Variable idx : index_t.

Local Abbreviation state := (CircularBuffer T).
Local Abbreviation W := (bits idx).
Local Abbreviation mask := (buffer_mask buffer_size idx).
Local Abbreviation wfs := (@wf T buffer_size idx).
Local Abbreviation slot := (λ x : Z, Z.to_nat (Z.land x mask)).
Local Abbreviation cont := (@contents T buffer_size idx).

Hypothesis Hinst : instantiable buffer_size.
Hypothesis Hcounts : counts_capacity buffer_size idx.
Hypothesis Hassert : ctor_assert buffer_size idx = true.

Implicit Types (s : state) (v data : T) (l vs buff d : list T).

Lemma mask_capacity : ∃ m, 0 ≤ m ∧ mask = Z.ones m ∧ 2 ^ m = buffer_size.
Proof using Hinst Hcounts Hassert.
  unfold counts_capacity, instantiable in *.
  apply ctor_assert_pow2 in Hassert as (k & Hk & Hpow); [|lia].
  exists k. split; [done|]. split; [|done].
  rewrite buffer_mask_fits, Z.ones_equiv by lia. lia.
Qed.

Lemma slot_head_add s x :
  Z.land (m_head s + x) mask
  = Z.land (m_tail s + readAvailable idx s + x) mask.
Proof using Type.
  rewrite readAvailable_eq.
  replace (m_tail s + to_index idx (m_head s - m_tail s) + x)
    with (to_index idx (m_head s - m_tail s) + (m_tail s + x)) by lia.
  rewrite (slot_to_index_add buffer_size idx). f_equal. lia.
Qed.

(** Below the capacity the test of [insert] does not fire, whatever the
    counter type. *)
Lemma insert_below_capacity s :
  wfs s → readAvailable idx s < buffer_size →
  to_size (head_minus_tail idx s) ≠ buffer_size.
Proof using Hinst Hcounts.
  intros Hwf Hlt. pose proof Hwf as (_ & Hh & Ht).
  unfold counts_capacity in Hcounts.
  destruct (promoted idx) eqn:Hp.
  - destruct (Z_le_gt_dec (m_tail s) (m_head s)) as [Hle|Hgt].
    + rewrite (to_size_head_minus_tail_ge buffer_size) by done.
      rewrite readAvailable_eq, to_index_small in Hlt by lia. lia.
    + destruct (to_size_head_minus_tail_wrapped buffer_size idx s Hp Hwf)
        as [_ Hbig]; [lia|].
      assert (2 ^ W ≤ 2 ^ 31).
      { unfold promoted, int_bits in Hp. apply Z.ltb_lt in Hp.
        apply Z.pow_le_mono_r; lia. }
      lia.
  - rewrite to_size_head_minus_tail_unpromoted by done. lia.
Qed.

(** Advancing [m_head] by [k] over slots that hold [vs], with the pending
    slots untouched, appends [vs]. *)
Lemma contents_head_add s k vs d :
  wfs s → readAvailable idx s + k ≤ buffer_size →
  Z.of_nat (length vs) = k →
  length d = length (m_dataBuff s) →
  (∀ j, 0 ≤ j < readAvailable idx s →
     d !! slot (m_tail s + j) = m_dataBuff s !! slot (m_tail s + j)) →
  (∀ j, 0 ≤ j < k → d !! slot (m_head s + j) = vs !! Z.to_nat j) →
  cont (mkCircularBuffer (to_index idx (m_head s + k)) (m_tail s) d)
  = cont s ++ vs.
Proof using Hinst Hcounts.
  intros Hwf Hroom Hk Hd Hold Hnew. cbv beta in *.
  pose proof (readAvailable_range idx s) as Hra.
  pose proof (contents_length buffer_size idx Hinst s Hwf) as Hlen.
  unfold counts_capacity in Hcounts.
  assert (Hwf' : wfs (mkCircularBuffer (to_index idx (m_head s + k))
                        (m_tail s) d)) by (by apply wf_set_head).
  assert (Hra' : readAvailable idx
                   (mkCircularBuffer (to_index idx (m_head s + k)) (m_tail s) d)
                 = readAvailable idx s + k).
  { rewrite readAvailable_head_add. apply to_index_small. lia. }
  apply contents_eq; [done..| |].
  - rewrite Hra', length_app. lia.
  - intros j Hj. rewrite length_app in Hj. simpl.
    destruct (decide (j < length (cont s))%nat) as [Hlt|Hge].
    + rewrite lookup_app_l, contents_lookup by (done || lia).
      symmetry. apply Hold. lia.
    + rewrite lookup_app_r by lia.
      specialize (Hnew (Z.of_nat j - readAvailable idx s) ltac:(lia)).
      rewrite slot_head_add in Hnew.
      replace (m_tail s + readAvailable idx s
               + (Z.of_nat j - readAvailable idx s))
        with (m_tail s + Z.of_nat j) in Hnew by lia.
      rewrite Hnew. f_equal. lia.
Qed.

Lemma insert_contents s data :
  wfs s → readAvailable idx s < buffer_size →
  ∃ s', insert buffer_size idx s data = Some (true, s')
        ∧ wfs s'
        ∧ readAvailable idx s' = readAvailable idx s + 1
        ∧ cont s' = cont s ++ [data].
Proof using Hinst Hcounts Hassert.
  intros Hwf Hlt. pose proof Hwf as (Hlen & Hh & Ht).
  pose proof (readAvailable_range idx s) as Hra.
  destruct mask_capacity as (m & Hm & Hmask & Hcap).
  unfold counts_capacity in Hcounts.
  eexists. split.
  { apply insert_not_full; [done..|]. by apply insert_below_capacity. }
  pose proof (slot_in_array buffer_size idx s (m_head s) Hinst Hwf
                ltac:(lia)) as Hslot.
  split; [apply wf_set_head; [done|by rewrite length_insert]|].
  split; [rewrite readAvailable_head_add; apply to_index_small; lia|].
  apply contents_head_add; [done|lia|done|by rewrite length_insert| |].
  - intros j Hj. apply list_lookup_insert_ne.
    rewrite <- (Z.add_0_r (m_head s)), slot_head_add, Z.add_0_r.
    replace (m_tail s + readAvailable idx s)
      with (m_tail s + j + (readAvailable idx s - j)) by lia.
    apply (slot_ne buffer_size idx m); [done..|lia|lia].
  - intros j Hj. assert (j = 0) as -> by lia. rewrite Z.add_0_r. simpl.
    apply list_lookup_insert_eq. lia.
Qed.

Lemma writeBuff_contents s buff count :
  wfs s → readAvailable idx s ≤ buffer_size → 0 ≤ count →
  Z.min count (buffer_size - readAvailable idx s) ≤ Z.of_nat (length buff) →
  ∃ s', writeBuff buffer_size idx s buff count
        = Some (Z.min count (buffer_size - readAvailable idx s), s')
        ∧ wfs s'
        ∧ cont s'
          = cont s
            ++ take (Z.to_nat (Z.min count (buffer_size - readAvailable idx s)))
                 buff.
Proof using Hinst Hcounts Hassert.
  intros Hwf Hinv Hcount Hroom. pose proof Hwf as (Hlen & Hh & Ht).
  pose proof (readAvailable_range idx s) as Hra.
  destruct mask_capacity as (m & Hm & Hmask & Hcap).
  assert (Hwa : writeAvailable buffer_size idx s
                = buffer_size - readAvailable idx s).
  { apply (writeAvailable_inv buffer_size idx Hcounts).
    by apply occupancy_inv_readAvailable. }
  set (n := Z.min count (buffer_size - readAvailable idx s)) in *.
  destruct (writeBuff_total buffer_size idx s buff count Hinst Hwf)
    as [[r s'] Hw]; [rewrite Hwa; by fold n|].
  pose proof (writeBuff_inv _ _ _ _ _ _ _ Hwf Hw) as (Hr & Hwf' & Ht' & Hh').
  rewrite Hwa in Hr. fold n in Hr. subst r.
  rewrite Z2Nat.id in Hh' by lia.
  exists s'. split; [done|]. split; [done|].
  unfold writeBuff in Hw. fold (writeAvailable buffer_size idx s) in Hw.
  rewrite Hwa in Hw.
  replace (if buffer_size - readAvailable idx s <? count
           then buffer_size - readAvailable idx s else count)
    with n in Hw
    by (unfold n; destruct (Z.ltb_spec (buffer_size - readAvailable idx s) count); lia).
  destruct (write_loop _ _ _ _ _ _) as [s1|] eqn:Hloop; [|done].
  simpl in Hw. injection Hw as ->.
  pose proof (write_loop_inv _ _ _ _ _ _ _ Hloop Hwf) as ((Hlen' & _) & _).
  destruct s' as [h' t' d']. simpl in *. subst h' t'.
  apply contents_head_add; [done|lia| | | |].
  - rewrite length_take. lia.
  - by rewrite Hlen'.
  - intros j Hj.
    apply (write_loop_untouched buffer_size idx _ _ _ _ _ _ Hloop).
    intros k Hk. rewrite slot_head_add.
    replace (m_tail s + readAvailable idx s + k)
      with (m_tail s + j + (readAvailable idx s + k - j)) by lia.
    apply not_eq_sym, (slot_ne buffer_size idx m); [done..|lia|lia].
  - intros j Hj.
    rewrite (write_loop_stored buffer_size idx m _ _ _ _ _ _ Hinst Hwf Hm
               Hmask (Z.le_refl 0) Hloop) by lia.
    rewrite Z.add_0_l. by rewrite lookup_take_lt by lia.
Qed.

End Producer.

(** X9.  When the assertion of the constructor holds and the counter type
    can count [buffer_size] elements, [insert] (both overloads) on a buffer
    with fewer than [buffer_size] pending elements returns [true] and
    appends the value behind the pending elements, which keep their order;
    [m_tail] is not changed.  This holds for every counter type, also once
    the counters have wrapped. *)
Theorem insert_appends (T : Type) (buffer_size : Z) (idx : index_t)
    (s : CircularBuffer T) (data : T) :
  instantiable buffer_size → counts_capacity buffer_size idx →
  ctor_assert buffer_size idx = true →
  wf buffer_size idx s → readAvailable idx s < buffer_size →
  ∃ s', insert buffer_size idx s data = Some (true, s')
        ∧ insert_ptr buffer_size idx s data = Some (true, s')
        ∧ contents buffer_size idx s' = contents buffer_size idx s ++ [data]
        ∧ readAvailable idx s' = readAvailable idx s + 1
        ∧ m_tail s' = m_tail s.
Proof.
  intros Hi Hc Ha Hwf Hlt.
  destruct (insert_contents buffer_size idx Hi Hc Ha s data Hwf Hlt)
    as (s' & Hins & _ & Hra & Hcont).
  exists s'. split; [done|]. split; [done|]. split; [done|]. split; [done|].
  by apply insert_inv in Hins as [[? _]|(_ & _ & ? & _)].
Qed.

Lemma insert_appends_witness :
  (instantiable demo_size ∧ counts_capacity demo_size demo_index
   ∧ ctor_assert demo_size demo_index = true
   ∧ wf demo_size demo_index demo_wrapped
   ∧ readAvailable demo_index demo_wrapped < demo_size)
  ∧ ∃ s', insert demo_size demo_index demo_wrapped 11 = Some (true, s')
          ∧ insert_ptr demo_size demo_index demo_wrapped 11 = Some (true, s')
          ∧ contents demo_size demo_index s'
            = contents demo_size demo_index demo_wrapped ++ [11]
          ∧ readAvailable demo_index s'
            = readAvailable demo_index demo_wrapped + 1
          ∧ m_tail s' = m_tail demo_wrapped.
Proof.
  assert (Hi : instantiable demo_size) by (by vm_compute).
  assert (Hc : counts_capacity demo_size demo_index) by (by vm_compute).
  assert (Ha : ctor_assert demo_size demo_index = true) by reflexivity.
  assert (Hwf : wf demo_size demo_index demo_wrapped) by (by vm_compute).
  assert (Hlt : readAvailable demo_index demo_wrapped < demo_size)
    by (by vm_compute).
  split; [done|].
  exact (insert_appends Z demo_size demo_index demo_wrapped 11
           Hi Hc Ha Hwf Hlt).
Defined.

(** X10.  Under the same conditions on the instantiation, [writeBuff(buff,
    count)] on a buffer with at most [buffer_size] pending elements appends
    the first [n] elements of [buff], in order, behind the pending ones,
    where [n] is [count] or the number of free slots, whichever is smaller,
    and returns [n]; the pending elements are not overwritten. *)
Theorem writeBuff_appends (T : Type) (buffer_size : Z) (idx : index_t)
    (s : CircularBuffer T) (buff : list T) (count : Z) :
  instantiable buffer_size → counts_capacity buffer_size idx →
  ctor_assert buffer_size idx = true →
  wf buffer_size idx s → readAvailable idx s ≤ buffer_size →
  0 ≤ count →
  Z.min count (buffer_size - readAvailable idx s) ≤ Z.of_nat (length buff) →
  ∃ s', writeBuff buffer_size idx s buff count
        = Some (Z.min count (buffer_size - readAvailable idx s), s')
        ∧ contents buffer_size idx s'
          = contents buffer_size idx s
            ++ take (Z.to_nat (Z.min count (buffer_size - readAvailable idx s)))
                 buff
        ∧ m_tail s' = m_tail s.
Proof.
  intros Hi Hc Ha Hwf Hinv Hcount Hroom.
  destruct (writeBuff_contents buffer_size idx Hi Hc Ha s buff count
              Hwf Hinv Hcount Hroom) as (s' & Hw & _ & Hcont).
  exists s'. split; [done|]. split; [done|].
  by apply writeBuff_inv in Hw as (_ & _ & ? & _).
Qed.

Lemma writeBuff_appends_witness :
  (instantiable demo_size ∧ counts_capacity demo_size demo_index
   ∧ ctor_assert demo_size demo_index = true
   ∧ wf demo_size demo_index demo_wrapped
   ∧ readAvailable demo_index demo_wrapped ≤ demo_size
   ∧ 0 ≤ 30
   ∧ Z.min 30 (demo_size - readAvailable demo_index demo_wrapped)
     ≤ Z.of_nat (length (seqZ 11 30)))
  ∧ ∃ s', writeBuff demo_size demo_index demo_wrapped (seqZ 11 30) 30
          = Some (Z.min 30 (demo_size - readAvailable demo_index demo_wrapped),
                  s')
          ∧ contents demo_size demo_index s'
            = contents demo_size demo_index demo_wrapped
              ++ take (Z.to_nat
                         (Z.min 30
                            (demo_size - readAvailable demo_index demo_wrapped)))
                   (seqZ 11 30)
          ∧ m_tail s' = m_tail demo_wrapped.
Proof.
  assert (Hi : instantiable demo_size) by (by vm_compute).
  assert (Hc : counts_capacity demo_size demo_index) by (by vm_compute).
  assert (Ha : ctor_assert demo_size demo_index = true) by reflexivity.
  assert (Hwf : wf demo_size demo_index demo_wrapped) by (by vm_compute).
  assert (Hinv : readAvailable demo_index demo_wrapped ≤ demo_size)
    by (by vm_compute).
  assert (H30 : 0 ≤ 30) by lia.
  assert (Hroom : Z.min 30 (demo_size - readAvailable demo_index demo_wrapped)
                  ≤ Z.of_nat (length (seqZ 11 30))) by (by vm_compute).
  split; [done|].
  exact (writeBuff_appends Z demo_size demo_index demo_wrapped (seqZ 11 30) 30
           Hi Hc Ha Hwf Hinv H30 Hroom).
Defined.

(** ** Sequences of calls *)

Section Sequences.

Context {T : Type}.
Variable buffer_size : Z.
Variable idx : index_t.

Local Abbreviation state := (CircularBuffer T).
Local Abbreviation wfs := (@wf T buffer_size idx).
Local Abbreviation cont := (@contents T buffer_size idx).

Hypothesis Hinst : instantiable buffer_size.

Implicit Types (s : state) (v data dpw dpr : T) (l vs dpws : list T).

Lemma remove_all_contents n : ∀ s data,
  wfs s → length (cont s) = n →
  remove_all buffer_size idx n s data = Some (cont s, clear s).
Proof using Hinst.
  induction n as [|n IH]; intros s data Hwf Hn.
  - apply nil_length_inv in Hn as Hnil. rewrite Hnil. simpl.
    rewrite (clear_of_empty buffer_size idx s Hwf); [done|].
    pose proof (contents_length buffer_size idx Hinst s Hwf) as Hlen.
    pose proof (readAvailable_range idx s). rewrite Hnil in Hlen.
    simpl in Hlen. lia.
  - destruct (cont s) as [|v l] eqn:Hc; [done|]. simpl in Hn.
    destruct (remove_ptr_contents buffer_size idx Hinst s data v l Hwf Hc)
      as [Hr Hc'].
    simpl. rewrite Hr, IH; [|by apply wf_set_tail|rewrite Hc'; lia].
    simpl. by rewrite Hc'.
Qed.

Hypothesis Hcounts : counts_capacity buffer_size idx.
Hypothesis Hassert : ctor_assert buffer_size idx = true.

Lemma insert_all_contents vs : ∀ s,
  wfs s → readAvailable idx s + Z.of_nat (length vs) ≤ buffer_size →
  ∃ s', insert_all buffer_size idx s vs = Some s'
        ∧ wfs s'
        ∧ readAvailable idx s' = readAvailable idx s + Z.of_nat (length vs)
        ∧ cont s' = cont s ++ vs.
Proof using Hinst Hcounts Hassert.
  induction vs as [|v vs IH]; intros s Hwf Hroom; simpl in *.
  - exists s. rewrite app_nil_r. do 2 (split; [done|]). split; [lia|done].
  - destruct (insert_contents buffer_size idx Hinst Hcounts Hassert s v Hwf)
      as (s1 & Hins & Hwf1 & Hra1 & Hc1); [lia|].
    rewrite Hins.
    destruct (IH s1 Hwf1) as (s' & Hall & Hwf' & Hra' & Hc'); [lia|].
    exists s'. split; [done|]. split; [done|]. split; [lia|].
    by rewrite Hc', Hc1, <- app_assoc.
Qed.

Lemma isFull_iff s :
  readAvailable idx s ≤ buffer_size →
  isFull buffer_size idx s = true ↔ readAvailable idx s = buffer_size.
Proof using Hcounts.
  intros Hinv. unfold isFull.
  rewrite (writeAvailable_inv buffer_size idx Hcounts)
    by (by apply occupancy_inv_readAvailable).
  rewrite Z.eqb_eq. lia.
Qed.

Lemma main_round_contents s dpw dpr :
  wfs s → readAvailable idx s ≤ buffer_size →
  ∃ rm dpr' s',
    main_round buffer_size idx s dpw dpr = Some (rm, true, dpr', s')
    ∧ wfs s' ∧ readAvailable idx s' ≤ buffer_size
    ∧ ((readAvailable idx s < buffer_size ∧ rm = None ∧ dpr' = dpr
        ∧ cont s' = cont s ++ [dpw])
       ∨ (readAvailable idx s = buffer_size ∧ rm = Some true
          ∧ cont s = dpr' :: removelast (cont s' )
          ∧ cont s' = tail (cont s) ++ [dpw])).
Proof using Hinst Hcounts Hassert.
  intros Hwf Hinv. unfold main_round.
  pose proof (contents_length buffer_size idx Hinst s Hwf) as Hlen.
  destruct (isFull buffer_size idx s) eqn:Hfull.
  - apply (isFull_iff s Hinv) in Hfull.
    destruct (cont s) as [|v l] eqn:Hc.
    { simpl in Hlen. unfold instantiable in Hinst. lia. }
    destruct (remove_ptr_contents buffer_size idx Hinst s dpr v l Hwf Hc)
      as [-> Hc1].
    simpl in Hlen. simpl.
    set (s1 := mkCircularBuffer _ _ _) in *.
    assert (Hwf1 : wfs s1) by (by apply wf_set_tail).
    assert (Hra1 : readAvailable idx s1 = buffer_size - 1).
    { pose proof (contents_length buffer_size idx Hinst s1 Hwf1) as Hlen1.
      pose proof (readAvailable_range idx s1). rewrite Hc1 in Hlen1. lia. }
    destruct (insert_contents buffer_size idx Hinst Hcounts Hassert s1 dpw Hwf1)
      as (s2 & Hins & Hwf2 & Hra2 & Hc2); [lia|].
    rewrite insert_ptr_insert, Hins. simpl.
    exists (Some true), v, s2. split; [done|]. split; [done|].
    split; [lia|]. right. split; [done|]. split; [done|].
    rewrite Hc2, Hc1. split; [|done].
    by rewrite removelast_last.
  - assert (Hlt : readAvailable idx s < buffer_size).
    { destruct (Z.eq_dec (readAvailable idx s) buffer_size) as [E|E]; [|lia].
      apply (isFull_iff s Hinv) in E. congruence. }
    destruct (insert_contents buffer_size idx Hinst Hcounts Hassert s dpw Hwf Hlt)
      as (s2 & Hins & Hwf2 & Hra2 & Hc2).
    rewrite insert_ptr_insert, Hins. simpl.
    exists None, dpr, s2. split; [done|]. split; [done|].
    split; [lia|]. left. by repeat split.
Qed.

(** The pending elements after one round are the newest [buffer_size] of
    the old ones followed by [dpw]. *)
Lemma main_round_window s dpw dpr rm dpr' s' :
  wfs s → readAvailable idx s ≤ buffer_size →
  main_round buffer_size idx s dpw dpr = Some (rm, true, dpr', s') →
  cont s'
  = drop (length (cont s ++ [dpw]) - Z.to_nat buffer_size) (cont s ++ [dpw]).
Proof using Hinst Hcounts Hassert.
  intros Hwf Hinv Hrun.
  pose proof (contents_length buffer_size idx Hinst s Hwf) as Hlen.
  pose proof (readAvailable_range idx s) as Hra.
  destruct (main_round_contents s dpw dpr Hwf Hinv)
    as (rm0 & dpr0 & s0 & Hrun0 & _ & _ & Hcases).
  rewrite Hrun in Hrun0. injection Hrun0 as <- <- <-.
  rewrite length_app. simpl.
  destruct Hcases as [(Hlt & _ & _ & ->)|(Heq & _ & _ & ->)].
  - by replace (length (cont s) + 1 - Z.to_nat buffer_size)%nat with 0%nat
      by lia.
  - replace (length (cont s) + 1 - Z.to_nat buffer_size)%nat with 1%nat by lia.
    destruct (cont s); [simpl in Hlen; unfold instantiable in Hinst; lia|done].
Qed.

Lemma main_rounds_contents dpws : ∀ s dpr,
  wfs s → readAvailable idx s ≤ buffer_size →
  ∃ log dpr' s',
    main_rounds buffer_size idx s dpws dpr = Some (log, dpr', s')
    ∧ Forall (λ e, e.2 = true) log
    ∧ length log = length dpws
    ∧ wfs s' ∧ readAvailable idx s' ≤ buffer_size
    ∧ cont s'
      = drop (length (cont s ++ dpws) - Z.to_nat buffer_size)
          (cont s ++ dpws).
Proof using Hinst Hcounts Hassert.
  induction dpws as [|dpw dpws IH]; intros s dpr Hwf Hinv.
  - exists [], dpr, s. simpl. rewrite app_nil_r.
    pose proof (contents_length buffer_size idx Hinst s Hwf) as Hlen.
    pose proof (readAvailable_range idx s).
    do 4 (split; [done|]). split; [done|].
    by replace (length (cont s) - Z.to_nat buffer_size)%nat with 0%nat by lia.
  - destruct (main_round_contents s dpw dpr Hwf Hinv)
      as (rm & dpr1 & s1 & Hrun & Hwf1 & Hinv1 & _).
    pose proof (main_round_window s dpw dpr rm dpr1 s1 Hwf Hinv Hrun) as Hwin.
    destruct (IH s1 dpr1 Hwf1 Hinv1)
      as (log & dpr' & s' & Hrest & Hall & Hlen & Hwf' & Hinv' & Hc').
    exists ((rm, true) :: log), dpr', s'. simpl. rewrite Hrun. simpl.
    rewrite Hrest. simpl.
    split; [done|]. split; [by constructor|]. split; [by rewrite Hlen|].
    split; [done|]. split; [done|].
    rewrite Hc', Hwin.
    pose proof (contents_length buffer_size idx Hinst s1 Hwf1) as Hlen1.
    pose proof (readAvailable_range idx s1).
    rewrite Hwin in Hlen1.
    replace (cont s ++ dpw :: dpws) with ((cont s ++ [dpw]) ++ dpws)
      by (by rewrite <- app_assoc).
    set (c := cont s ++ [dpw]) in *.
    rewrite length_drop in Hlen1.
    rewrite !length_app, length_drop.
    destruct (decide (length c ≤ Z.to_nat buffer_size)%nat) as [Hle|Hgt].
    + replace (length c - Z.to_nat buffer_size)%nat with 0%nat by lia.
      rewrite drop_0. do 2 f_equal. lia.
    + rewrite <- drop_app_le by lia. rewrite drop_drop. f_equal. lia.
Qed.

End Sequences.

(** X11.  First in, first out from any state, also across the wraparound of
    the counters: when the assertion of the constructor holds and the
    counter type can count [buffer_size] elements, on a well-formed buffer
    the inserts of values [vs] that fit the free slots all return [true],
    and removing as many elements as are then pending yields the elements
    that were pending before followed by [vs], all calls returning [true];
    the buffer is left as [clear()] would leave it.  This holds for every
    counter type. *)
Theorem fifo_across_wraparound (T : Type) (buffer_size : Z) (idx : index_t)
    (s : CircularBuffer T) (vs : list T) (data : T) :
  instantiable buffer_size → counts_capacity buffer_size idx →
  ctor_assert buffer_size idx = true →
  wf buffer_size idx s →
  readAvailable idx s + Z.of_nat (length vs) ≤ buffer_size →
  ∃ s1,
    insert_all buffer_size idx s vs = Some s1
    ∧ contents buffer_size idx s1 = contents buffer_size idx s ++ vs
    ∧ remove_all buffer_size idx
        (length (contents buffer_size idx s ++ vs)) s1 data
      = Some (contents buffer_size idx s ++ vs, clear s1).
Proof.
  intros Hi Hc Ha Hwf Hroom.
  destruct (insert_all_contents buffer_size idx Hi Hc Ha vs s Hwf Hroom)
    as (s1 & Hall & Hwf1 & _ & Hc1).
  exists s1. split; [done|]. split; [done|].
  rewrite <- Hc1. by apply remove_all_contents.
Qed.

Lemma fifo_across_wraparound_witness :
  (instantiable demo_size ∧ counts_capacity demo_size demo_index
   ∧ ctor_assert demo_size demo_index = true
   ∧ wf demo_size demo_index demo_wrapped
   ∧ readAvailable demo_index demo_wrapped + Z.of_nat (length [11; 12; 13])
     ≤ demo_size)
  ∧ ∃ s1,
      insert_all demo_size demo_index demo_wrapped [11; 12; 13] = Some s1
      ∧ contents demo_size demo_index s1
        = contents demo_size demo_index demo_wrapped ++ [11; 12; 13]
      ∧ remove_all demo_size demo_index
          (length (contents demo_size demo_index demo_wrapped ++ [11; 12; 13]))
          s1 0
        = Some (contents demo_size demo_index demo_wrapped ++ [11; 12; 13],
                clear s1).
Proof.
  assert (Hi : instantiable demo_size) by (by vm_compute).
  assert (Hc : counts_capacity demo_size demo_index) by (by vm_compute).
  assert (Ha : ctor_assert demo_size demo_index = true) by reflexivity.
  assert (Hwf : wf demo_size demo_index demo_wrapped) by (by vm_compute).
  assert (Hroom : readAvailable demo_index demo_wrapped
                  + Z.of_nat (length [11; 12; 13]) ≤ demo_size)
    by (by vm_compute).
  split; [done|].
  exact (fifo_across_wraparound Z demo_size demo_index demo_wrapped
           [11; 12; 13] 0 Hi Hc Ha Hwf Hroom).
Defined.

(** X12.  One round of the first loop of [main] (remove one element if
    [isFull()], then insert) always inserts: when the assertion of the
    constructor holds and the counter type can count [buffer_size]
    elements, on a well-formed buffer with at most [buffer_size] pending
    elements [insert] returns [true].  If the buffer was not full nothing
    is removed and [dpw] is appended; if it was full, [remove] returns
    [true], [dpr] receives the oldest element and [dpw] is appended to the
    others.  At most [buffer_size] elements are pending afterwards.  This
    holds for every counter type, also once the counters have wrapped. *)
Theorem main_round_evicts_oldest (T : Type) (buffer_size : Z) (idx : index_t)
    (s : CircularBuffer T) (dpw dpr : T) :
  instantiable buffer_size → counts_capacity buffer_size idx →
  ctor_assert buffer_size idx = true →
  wf buffer_size idx s → readAvailable idx s ≤ buffer_size →
  ∃ rm dpr' s',
    main_round buffer_size idx s dpw dpr = Some (rm, true, dpr', s')
    ∧ wf buffer_size idx s'
    ∧ readAvailable idx s' ≤ buffer_size
    ∧ (readAvailable idx s < buffer_size →
       rm = None ∧ dpr' = dpr
       ∧ contents buffer_size idx s' = contents buffer_size idx s ++ [dpw])
    ∧ (readAvailable idx s = buffer_size →
       rm = Some true
       ∧ head (contents buffer_size idx s) = Some dpr'
       ∧ contents buffer_size idx s'
         = tail (contents buffer_size idx s) ++ [dpw]).
Proof.
  intros Hi Hc Ha Hwf Hinv.
  destruct (main_round_contents buffer_size idx Hi Hc Ha s dpw dpr Hwf Hinv)
    as (rm & dpr' & s' & Hrun & Hwf' & Hinv' & Hcases).
  exists rm, dpr', s'. do 3 (split; [done|]).
  destruct Hcases as [(Hlt & -> & -> & Hcont)|(Heq & -> & Hold & Hcont)].
  - split; [done|]. lia.
  - split; [lia|]. intros _. split; [done|]. split; [|done]. by rewrite Hold.
Qed.

Lemma main_round_evicts_oldest_witness :
  (instantiable demo_size ∧ counts_capacity demo_size demo_index
   ∧ ctor_assert demo_size demo_index = true
   ∧ wf demo_size demo_index demo_full
   ∧ readAvailable demo_index demo_full ≤ demo_size)
  ∧ ∃ rm dpr' s',
      main_round demo_size demo_index demo_full 33 0
      = Some (rm, true, dpr', s')
      ∧ (readAvailable demo_index demo_full = demo_size →
         rm = Some true
         ∧ head (contents demo_size demo_index demo_full) = Some dpr'
         ∧ contents demo_size demo_index s'
           = tail (contents demo_size demo_index demo_full) ++ [33]).
Proof.
  assert (Hi : instantiable demo_size) by (by vm_compute).
  assert (Hc : counts_capacity demo_size demo_index) by (by vm_compute).
  assert (Ha : ctor_assert demo_size demo_index = true) by reflexivity.
  assert (Hwf : wf demo_size demo_index demo_full) by (by vm_compute).
  assert (Hinv : readAvailable demo_index demo_full ≤ demo_size)
    by (by vm_compute).
  split; [done|].
  destruct (main_round_evicts_oldest Z demo_size demo_index demo_full 33 0
              Hi Hc Ha Hwf Hinv)
    as (rm & dpr' & s' & Hrun & _ & _ & _ & Hfull).
  by exists rm, dpr', s'.
Defined.

(** X13.  The first loop of [main] keeps the newest elements: under the
    same conditions, for any values [dpws] of [dpw] in successive rounds,
    every round returns, every [insert] returns [true], and afterwards the
    pending elements are the last [buffer_size] elements of the old pending
    elements followed by [dpws] (all of them if they are fewer).  This
    holds for every counter type and any number of rounds, also across the
    wraparound of the counters. *)
Theorem main_rounds_keep_newest (T : Type) (buffer_size : Z) (idx : index_t)
    (s : CircularBuffer T) (dpws : list T) (dpr : T) :
  instantiable buffer_size → counts_capacity buffer_size idx →
  ctor_assert buffer_size idx = true →
  wf buffer_size idx s → readAvailable idx s ≤ buffer_size →
  ∃ log dpr' s',
    main_rounds buffer_size idx s dpws dpr = Some (log, dpr', s')
    ∧ Forall (λ e, e.2 = true) log
    ∧ length log = length dpws
    ∧ readAvailable idx s' ≤ buffer_size
    ∧ contents buffer_size idx s'
      = drop (length (contents buffer_size idx s ++ dpws)
              - Z.to_nat buffer_size)
          (contents buffer_size idx s ++ dpws).
Proof.
  intros Hi Hc Ha Hwf Hinv.
  destruct (main_rounds_contents buffer_size idx Hi Hc Ha dpws s dpr Hwf Hinv)
    as (log & dpr' & s' & Hrun & Hall & Hlen & _ & Hinv' & Hcont).
  by exists log, dpr', s'.
Qed.

Lemma main_rounds_keep_newest_witness :
  (instantiable demo_size ∧ counts_capacity demo_size demo_index
   ∧ ctor_assert demo_size demo_index = true
   ∧ wf demo_size demo_index demo_wrapped
   ∧ readAvailable demo_index demo_wrapped ≤ demo_size)
  ∧ ∃ log dpr' s',
      main_rounds demo_size demo_index demo_wrapped (seqZ 11 300) 0
      = Some (log, dpr', s')
      ∧ Forall (λ e, e.2 = true) log
      ∧ length log = length (seqZ 11 300)
      ∧ readAvailable demo_index s' ≤ demo_size
      ∧ contents demo_size demo_index s'
        = drop (length (contents demo_size demo_index demo_wrapped
                        ++ seqZ 11 300)
                - Z.to_nat demo_size)
            (contents demo_size demo_index demo_wrapped ++ seqZ 11 300).
Proof.
  assert (Hi : instantiable demo_size) by (by vm_compute).
  assert (Hc : counts_capacity demo_size demo_index) by (by vm_compute).
  assert (Ha : ctor_assert demo_size demo_index = true) by reflexivity.
  assert (Hwf : wf demo_size demo_index demo_wrapped) by (by vm_compute).
  assert (Hinv : readAvailable demo_index demo_wrapped ≤ demo_size)
    by (by vm_compute).
  split; [done|].
  exact (main_rounds_keep_newest Z demo_size demo_index demo_wrapped
           (seqZ 11 300) 0 Hi Hc Ha Hwf Hinv).
Defined.

(** ** The tests of [insert] and [at], by counter type *)

Lemma to_size_head_minus_tail_cases {T} buffer_size idx (s : CircularBuffer T) :
  wf buffer_size idx s →
  (promoted idx = false
   ∧ to_size (head_minus_tail idx s) = readAvailable idx s)
  ∨ (promoted idx = true ∧ m_tail s ≤ m_head s
     ∧ to_size (head_minus_tail idx s) = m_head s - m_tail s)
  ∨ (promoted idx = true ∧ m_head s < m_tail s
     ∧ 2 ^ 63 < to_size (head_minus_tail idx s)).
Proof.
  intros Hwf. destruct (promoted idx) eqn:Hp.
  - right. destruct (Z_le_gt_dec (m_tail s) (m_head s)) as [Hle|Hgt].
    + left. by rewrite (to_size_head_minus_tail_ge buffer_size).
    + right. split; [done|]. split; [lia|].
      apply (to_size_head_minus_tail_wrapped buffer_size idx s Hp Hwf). lia.
  - left. split; [done|]. by apply to_size_head_minus_tail_unpromoted.
Qed.

(** X14.  When [insert] rejects.  In an instantiation whose counter type
    can count [buffer_size] elements, on a well-formed state [insert]
    returns [false] (changing nothing) exactly when
    - [readAvailable() = buffer_size], for [uint32_t] and [uint64_t];
    - [m_head - m_tail = buffer_size] as integers, for [uint8_t] and
      [uint16_t]: never while [m_head] is below [m_tail];
    and otherwise it returns [true] and advances [m_head]. *)
Theorem insert_rejects_iff (T : Type) (buffer_size : Z) (idx : index_t)
    (s : CircularBuffer T) (data : T) :
  instantiable buffer_size → counts_capacity buffer_size idx →
  wf buffer_size idx s →
  (insert buffer_size idx s data = Some (false, s)
   ↔ if promoted idx then m_head s - m_tail s = buffer_size
     else readAvailable idx s = buffer_size)
  ∧ (insert buffer_size idx s data = Some (false, s)
     ∨ ∃ d, insert buffer_size idx s data
            = Some (true, mkCircularBuffer (to_index idx (m_head s + 1))
                            (m_tail s) d)).
Proof.
  intros Hi Hc Hwf. unfold counts_capacity, instantiable in *.
  assert (Hiff : insert buffer_size idx s data = Some (false, s)
                 ↔ to_size (head_minus_tail idx s) = buffer_size).
  { split; [|apply insert_full]. intros Hins.
    destruct (Z.eq_dec (to_size (head_minus_tail idx s)) buffer_size)
      as [E|E]; [done|].
    by rewrite insert_not_full in Hins. }
  split.
  - rewrite Hiff.
    destruct (to_size_head_minus_tail_cases buffer_size idx s Hwf)
      as [(Hp & ->)|[(Hp & Hle & ->)|(Hp & Hlt & Hbig)]]; rewrite Hp; [done..|].
    assert (2 ^ bits idx ≤ 2 ^ 31).
    { unfold promoted, int_bits in Hp. apply Z.ltb_lt in Hp.
      apply Z.pow_le_mono_r; lia. }
    lia.
  - destruct (Z.eq_dec (to_size (head_minus_tail idx s)) buffer_size)
      as [E|E]; [left; by apply insert_full|].
    right. eexists. by apply insert_not_full.
Qed.

Lemma insert_rejects_iff_witness :
  (instantiable demo_size ∧ counts_capacity demo_size demo_index
   ∧ wf demo_size demo_index demo_full)
  ∧ (insert demo_size demo_index demo_full 33 = Some (false, demo_full)
     ↔ if promoted demo_index
       then m_head demo_full - m_tail demo_full = demo_size
       else readAvailable demo_index demo_full = demo_size).
Proof.
  assert (Hi : instantiable demo_size) by (by vm_compute).
  assert (Hc : counts_capacity demo_size demo_index) by (by vm_compute).
  assert (Hwf : wf demo_size demo_index demo_full) by (by vm_compute).
  split; [done|].
  exact (proj1 (insert_rejects_iff Z demo_size demo_index demo_full 33
                  Hi Hc Hwf)).
Defined.

(** X15.  When [at] returns [NULL].  On a well-formed state and for an
    index up to [2 ^ 63], [at(index)] returns [NULL] exactly when
    - [readAvailable() ≤ index], for [uint32_t] and [uint64_t];
    - [m_tail ≤ m_head] and [m_head - m_tail ≤ index], for [uint8_t] and
      [uint16_t]: never while [m_head] is below [m_tail]. *)
Theorem at_null_iff (T : Type) (buffer_size : Z) (idx : index_t)
    (s : CircularBuffer T) (index : Z) :
  wf buffer_size idx s → 0 ≤ index ≤ 2 ^ 63 →
  (at_ buffer_size idx s index).1 = NULL
  ↔ if promoted idx
    then m_tail s ≤ m_head s ∧ m_head s - m_tail s ≤ index
    else readAvailable idx s ≤ index.
Proof.
  intros Hwf Hidx. unfold at_.
  destruct (Z.leb_spec (to_size (head_minus_tail idx s)) index) as [Hle|Hgt];
    simpl;
    destruct (to_size_head_minus_tail_cases buffer_size idx s Hwf)
      as [(Hp & Heq)|[(Hp & Hht & Heq)|(Hp & Hlt & Hbig)]];
    rewrite Hp; try rewrite Heq in *; split; (done || lia).
Qed.

Lemma at_null_iff_witness :
  (wf demo_size demo_index demo_wrapped ∧ 0 ≤ 20 ≤ 2 ^ 63)
  ∧ ((at_ demo_size demo_index demo_wrapped 20).1 = NULL
     ↔ if promoted demo_index
       then m_tail demo_wrapped ≤ m_head demo_wrapped
            ∧ m_head demo_wrapped - m_tail demo_wrapped ≤ 20
       else readAvailable demo_index demo_wrapped ≤ 20).
Proof.
  assert (Hwf : wf demo_size demo_index demo_wrapped) by (by vm_compute).
  assert (H20 : 0 ≤ 20 ≤ 2 ^ 63) by lia.
  split; [done|].
  exact (at_null_iff Z demo_size demo_index demo_wrapped 20 Hwf H20).
Defined.

(** ** The counter types that are not promoted *)

(** X16.  With [uint32_t] or [uint64_t] counters that can count
    [buffer_size] elements, the class is a bounded queue on every state the
    public operations produce from a new buffer: [readAvailable()] is the
    number of pending elements and is at most [buffer_size],
    [readAvailable() + writeAvailable() = buffer_size], [isFull()] holds
    exactly at [buffer_size] elements, and [insert] rejects (changing
    nothing) exactly then and otherwise appends the element. *)
Theorem wide_counter_bounded_queue (T : Type) (buffer_size : Z)
    (idx : index_t) (s : CircularBuffer T) (data : T) :
  promoted idx = false → counts_capacity buffer_size idx →
  reachable buffer_size idx s →
  readAvailable idx s = Z.of_nat (length (contents buffer_size idx s))
  ∧ readAvailable idx s ≤ buffer_size
  ∧ readAvailable idx s + writeAvailable buffer_size idx s = buffer_size
  ∧ (isFull buffer_size idx s = true ↔ readAvailable idx s = buffer_size)
  ∧ if isFull buffer_size idx s
    then insert buffer_size idx s data = Some (false, s)
    else ∃ s', insert buffer_size idx s data = Some (true, s')
               ∧ contents buffer_size idx s'
                 = contents buffer_size idx s ++ [data].
Proof.
  intros Hp Hc Hs.
  destruct (reachable_wf buffer_size idx s Hs) as (Hi & Ha & Hwf).
  pose proof (reachable_occupancy_inv buffer_size idx Hi Hc Hp s Hs) as Hinv.
  apply occupancy_inv_readAvailable in Hinv.
  pose proof (readAvailable_range idx s) as Hra.
  pose proof (isFull_iff buffer_size idx Hc s Hinv) as Hfull.
  split.
  { rewrite (contents_length buffer_size idx Hi) by done. lia. }
  split; [done|]. split.
  { by apply occupancy_sum_unpromoted. }
  split; [done|].
  destruct (isFull buffer_size idx s).
  - apply insert_on_full_unpromoted; [done|]. by apply Hfull.
  - assert (readAvailable idx s < buffer_size) as Hlt.
    { destruct (Z.eq_dec (readAvailable idx s) buffer_size) as [E|E];
        [|lia].
      by apply Hfull in E. }
    destruct (insert_contents buffer_size idx Hi Hc Ha s data Hwf Hlt)
      as (s' & Hins & _ & _ & Hcont).
    by exists s'.
Qed.

Lemma wide_counter_bounded_queue_witness :
  (promoted uint64_t = false ∧ counts_capacity 4 uint64_t
   ∧ reachable 4 uint64_t two_pending)
  ∧ readAvailable uint64_t two_pending
    = Z.of_nat (length (contents 4 uint64_t two_pending))
  ∧ readAvailable uint64_t two_pending ≤ 4.
Proof.
  assert (Hp : promoted uint64_t = false) by reflexivity.
  assert (Hc : counts_capacity 4 uint64_t) by (by vm_compute).
  pose proof two_pending_reachable as Hs.
  split; [done|].
  pose proof (wide_counter_bounded_queue Z 4 uint64_t two_pending 3
                Hp Hc Hs) as (H1 & H2 & _).
  by split.
Defined.

(** ** [FillStream] of examples/main.cpp *)

Lemma fill_step (data : list Z) (i n len : nat) (v : Z) :
  (i < length data)%nat → (i < len)%nat →
  take (S i) (<[i := v]> data) ++ replicate n v ++ drop len (<[i := v]> data)
  = take i data ++ replicate (S n) v ++ drop len data.
Proof.
  intros Hi Hlen.
  rewrite (take_S_r _ _ v) by (by apply list_lookup_insert_eq).
  rewrite take_insert_ge by lia. rewrite drop_insert_lt by lia.
  by rewrite <- app_assoc.
Qed.

Lemma unsigned_incr i : 0 ≤ i → i + 1 < 2 ^ 32 → wrap int_bits (i + 1) = i + 1.
Proof. intros H0 H1. apply wrap_small. unfold int_bits. lia. Qed.

(** Whatever the loop returns from [i] is the array filled from [i] to
    [len], and then the array has [len] elements. *)
Lemma FillStream_loop_result len value : ∀ fuel i data r,
  0 ≤ i ≤ len → len < 2 ^ 32 → i ≤ Z.of_nat (length data) →
  FillStream_loop fuel i data len value = Some r →
  len ≤ Z.of_nat (length data)
  ∧ r = take (Z.to_nat i) data ++ replicate (Z.to_nat (len - i)) value
        ++ drop (Z.to_nat len) data.
Proof.
  induction fuel as [|fuel IH]; intros i data r Hi Hlen Hdata; simpl;
    destruct (Z.ltb_spec i len) as [Hlt|Hge]; try done.
  - intros [= <-]. assert (i = len) as -> by lia. split; [done|].
    rewrite Z.sub_diag. simpl. by rewrite take_drop.
  - destruct (store data i value) as [d|] eqn:Hst; simpl; [|done].
    apply store_inv in Hst as (Hin & ->).
    rewrite unsigned_incr by lia. intros Hr.
    apply IH in Hr; [|lia|done|rewrite length_insert; lia].
    rewrite length_insert in Hr. destruct Hr as (Hl & ->). split; [done|].
    replace (Z.to_nat (i + 1)) with (S (Z.to_nat i)) by lia.
    replace (Z.to_nat (len - i)) with (S (Z.to_nat (len - (i + 1)))) by lia.
    apply fill_step; lia.
  - intros [= <-]. assert (i = len) as -> by lia. split; [done|].
    rewrite Z.sub_diag. simpl. by rewrite take_drop.
Qed.

(** The loop returns when the array has [len] elements and the fuel
    covers the rounds left. *)
Lemma FillStream_loop_total len value : ∀ fuel i data,
  0 ≤ i ≤ len → len < 2 ^ 32 → len ≤ Z.of_nat (length data) →
  len - i ≤ Z.of_nat fuel →
  is_Some (FillStream_loop fuel i data len value).
Proof.
  induction fuel as [|fuel IH]; intros i data Hi Hlen Hdata Hfuel; simpl;
    destruct (Z.ltb_spec i len) as [Hlt|Hge]; try done; try lia.
  rewrite store_Some by lia. simpl. rewrite unsigned_incr by lia.
  apply IH; [lia|done|rewrite length_insert; lia|lia].
Qed.

(** With [len] beyond the values of [unsigned], the test [i < len] never
    fails. *)
Lemma FillStream_loop_beyond_unsigned len value : ∀ fuel i data,
  2 ^ 32 ≤ len → 0 ≤ i < 2 ^ 32 →
  FillStream_loop fuel i data len value = None.
Proof.
  induction fuel as [|fuel IH]; intros i data Hlen Hi; simpl;
    destruct (Z.ltb_spec i len) as [Hlt|Hge]; try done; try lia.
  destruct (store data i value) as [d|]; simpl; [|done].
  apply IH; [done|]. pose proof (wrap_range int_bits (i + 1)) as Hw.
  unfold int_bits in *. lia.
Qed.

(** X17.  [FillStream(data, len, value)] on an array of at least [len]
    elements, with [len] below [2 ^ 32], sets the first [len] elements to
    [value] and leaves the others as they were; [len] rounds of the loop
    suffice. *)
Theorem FillStream_fills (fuel : nat) (data : list Z) (len value : Z) :
  0 ≤ len < 2 ^ 32 → len ≤ Z.of_nat (length data) → len ≤ Z.of_nat fuel →
  FillStream fuel data len value
  = Some (replicate (Z.to_nat len) value ++ drop (Z.to_nat len) data).
Proof.
  intros Hlen Hdata Hfuel. unfold FillStream.
  destruct (FillStream_loop_total len value fuel 0 data) as [r Hr];
    [lia..|].
  rewrite Hr. f_equal.
  apply FillStream_loop_result in Hr as (_ & ->); [|lia..].
  by rewrite Z.sub_0_r.
Qed.

Lemma FillStream_fills_witness :
  (0 ≤ 3 < 2 ^ 32 ∧ 3 ≤ Z.of_nat (length [1; 2; 3; 4; 5])
   ∧ 3 ≤ Z.of_nat 3)
  ∧ FillStream 3 [1; 2; 3; 4; 5] 3 7 = Some [7; 7; 7; 4; 5].
Proof.
  assert (H1 : 0 ≤ 3 < 2 ^ 32) by lia.
  assert (H2 : 3 ≤ Z.of_nat (length [1; 2; 3; 4; 5])) by (by vm_compute).
  assert (H3 : 3 ≤ Z.of_nat 3) by lia.
  split; [done|].
  exact (FillStream_fills 3 [1; 2; 3; 4; 5] 3 7 H1 H2 H3).
Defined.

(** X18.  [FillStream] returns only when [len] is below [2 ^ 32] and the
    array has at least [len] elements.  Its loop variable is an [unsigned]
    compared with the [size_t] [len]: for a greater [len] it wraps to 0
    before reaching [len], so that the loop writes beyond a shorter array
    or never ends. *)
Theorem FillStream_returns_in_range (fuel : nat) (data r : list Z)
    (len value : Z) :
  0 ≤ len < 2 ^ size_bits →
  FillStream fuel data len value = Some r →
  len < 2 ^ 32 ∧ len ≤ Z.of_nat (length data)
  ∧ length r = length data.
Proof.
  intros Hlen Hr. unfold FillStream in Hr.
  destruct (Z_lt_le_dec len (2 ^ 32)) as [Hlt|Hge].
  - apply FillStream_loop_result in Hr as (Hl & ->); [|lia..].
    split; [done|]. split; [done|].
    rewrite !length_app, length_replicate, length_drop. simpl. lia.
  - by rewrite FillStream_loop_beyond_unsigned in Hr by lia.
Qed.

Lemma FillStream_returns_in_range_witness :
  (0 ≤ 3 < 2 ^ size_bits
   ∧ FillStream 3 [1; 2; 3; 4; 5] 3 7 = Some [7; 7; 7; 4; 5])
  ∧ 3 < 2 ^ 32 ∧ 3 ≤ Z.of_nat (length [1; 2; 3; 4; 5])
  ∧ length [7; 7; 7; 4; 5] = length [1; 2; 3; 4; 5].
Proof.
  assert (H1 : 0 ≤ 3 < 2 ^ size_bits) by (by vm_compute).
  assert (H2 : FillStream 3 [1; 2; 3; 4; 5] 3 7 = Some [7; 7; 7; 4; 5])
    by reflexivity.
  split; [done|].
  exact (FillStream_returns_in_range 3 [1; 2; 3; 4; 5] [7; 7; 7; 4; 5] 3 7
           H1 H2).
Defined.

(** ** The assertion of the constructor, in every instantiation *)

(** The assertion tests [buffer_size] as converted to [index_t]: it passes
    when that value is 0 or a power of two. *)
Lemma ctor_assert_truncated buffer_size idx :
  instantiable buffer_size →
  ctor_assert buffer_size idx = true
  ↔ to_index idx buffer_size = 0 ∨ is_pow2 (to_index idx buffer_size).
Proof.
  intros [Hlo Hhi]. pose proof (bits_range idx) as HW.
  pose proof (to_index_range idx buffer_size) as Hr.
  unfold ctor_assert. rewrite Z.eqb_eq, buffer_mask_wrap by lia.
  unfold to_index in *.
  destruct (Z.eq_dec (wrap (bits idx) buffer_size) 0) as [H0|H0].
  - rewrite wrap_pred_0 by lia.
    replace (2 ^ bits idx - 1) with (Z.ones (bits idx))
      by (rewrite Z.ones_equiv; lia).
    rewrite Z.land_ones by lia. split; [by left|done].
  - rewrite wrap_pred_pos by lia.
    rewrite <- (land_wrap_l (bits idx)) by lia. split.
    + intros Hl. right. apply land_pred_pow2; [lia|done].
    + intros [Hz|(k & Hk & Hrk)]; [done|].
      rewrite Hrk. by apply pow2_land_pred.
Qed.

Lemma to_index_pow2 idx k :
  0 ≤ k →
  to_index idx (2 ^ k) = if k <? bits idx then 2 ^ k else 0.
Proof.
  intros Hk. pose proof (bits_range idx) as HW. unfold to_index, wrap.
  destruct (Z.ltb_spec k (bits idx)) as [Hlt|Hge].
  - apply Z.mod_small. split; [apply Z.pow_nonneg; lia|].
    apply Z.pow_lt_mono_r; lia.
  - replace (2 ^ k) with (2 ^ (k - bits idx) * 2 ^ bits idx)
      by (rewrite <- Z.pow_add_r by lia; f_equal; lia).
    apply Z.mod_mul. apply Z.pow_nonzero; lia.
Qed.

(** X19.  The guard of the default constructor, for every capacity that a
    [size_t] holds and every counter type.  The assertion passes exactly
    when [buffer_size] converted to [index_t] is 0 or a power of two.  So
    every power of two is accepted, whatever the counter type, and the
    constructor returns the buffer with [m_head = m_tail = 0] and the array
    as it found it; and a capacity that is not a power of two is rejected
    whenever [buffer_size - 1] fits the counter type
    ([buffer_size ≤ 2 ^ bits idx]). *)
Theorem ctor_guard_exact (T : Type) (buffer_size : Z) (idx : index_t)
    (mem : list T) :
  instantiable buffer_size →
  (ctor_assert buffer_size idx = true
   ↔ to_index idx buffer_size = 0 ∨ is_pow2 (to_index idx buffer_size))
  ∧ (is_pow2 buffer_size →
     CircularBuffer_ctor buffer_size idx mem = Some (mkCircularBuffer 0 0 mem))
  ∧ (buffer_size ≤ 2 ^ bits idx → ¬ is_pow2 buffer_size →
     CircularBuffer_ctor buffer_size idx mem = None).
Proof.
  intros Hi. pose proof (ctor_assert_truncated buffer_size idx Hi) as Hiff.
  split; [done|]. unfold CircularBuffer_ctor. split.
  - intros (k & Hk & Hpow).
    assert (ctor_assert buffer_size idx = true) as ->; [|done].
    apply Hiff. rewrite Hpow, to_index_pow2 by done.
    destruct (k <? bits idx); [right; by exists k|by left].
  - intros Hfit Hnp. destruct Hi as [Hlo Hhi].
    destruct (ctor_assert buffer_size idx) eqn:Ha; [|done].
    exfalso. apply Hnp. by apply (ctor_assert_pow2 buffer_size idx).
Qed.

Lemma not_pow2_6 : ¬ is_pow2 6.
Proof.
  intros (k & Hk & H). destruct (Z_lt_le_dec k 3) as [Hlt|Hge].
  - pose proof (Z.pow_le_mono_r 2 k 2). lia.
  - pose proof (Z.pow_le_mono_r 2 3 k). lia.
Qed.

Lemma ctor_guard_exact_witness :
  (instantiable 6
   ∧ CircularBuffer_ctor 6 uint8_t (replicate 6 0) = None)
  ∧ (instantiable 512
     ∧ CircularBuffer_ctor 512 uint8_t (replicate 512 0)
       = Some (mkCircularBuffer 0 0 (replicate 512 0))).
Proof.
  assert (H6 : instantiable 6) by (by vm_compute).
  assert (H512 : instantiable 512) by (by vm_compute).
  assert (Hfit : 6 ≤ 2 ^ bits uint8_t) by (by vm_compute).
  assert (Hpow : is_pow2 512) by (exists 9; by vm_compute).
  split; split; [done| |done|].
  - exact (proj2 (proj2 (ctor_guard_exact Z 6 uint8_t (replicate 6 0) H6))
             Hfit not_pow2_6).
  - exact (proj1 (proj2 (ctor_guard_exact Z 512 uint8_t (replicate 512 0)
                           H512)) Hpow).
Defined.
